(** * PEParser.Tests.DllARM64EC: the exception-scenario fixture

    A shallow embedding of [stdafx.h] and [PEParser.Tests.DllARM64EC.cpp]:
    the class [DllARM64EC_CppxdataUsage] with its three probes and the
    exported [ARM64EC_*] functions.

    C++ statements are embedded in a small state-and-control monad: a
    statement either falls through to the next one, executes [return],
    throws, or runs out of loop fuel.  Language exceptions ([throw] /
    [catch]) and structured exceptions ([__try] / [__except]) are two
    distinct combinators over the same propagation channel, as on the
    platform.  [printf] appends to a diagnostic log. *)

From Stdlib Require Import ZArith Floats Uint63 Ascii String Reals Lra.
From stdpp Require Import gmap strings list.

Local Open Scope Z_scope.

(** ** Machine integers *)

(** [wrap w z] is the value of [z] as a signed [w]-bit two's-complement
    integer: what a [w]-bit register holds after the operation. *)
Definition wrap (w : Z) (z : Z) : Z :=
  (z + 2 ^ (w - 1)) mod 2 ^ w - 2 ^ (w - 1).

(** [int] is 32 bits and [long long] is 64 bits on the target. *)
Definition int_range (z : Z) : Prop := - 2 ^ 31 <= z < 2 ^ 31.
Definition longlong_range (z : Z) : Prop := - 2 ^ 63 <= z < 2 ^ 63.

(** [(double)i] for an [int] i. *)
Definition double_of_int (i : Z) : float :=
  if 0 <=? i then PrimFloat.of_uint63 (Uint63.of_Z i)
  else PrimFloat.opp (PrimFloat.of_uint63 (Uint63.of_Z (- i))).

(** ** Exceptions *)

(** What can propagate up the stack: the two language exception classes
    the file throws, and a structured (hardware) exception with its
    status code. *)
Inductive exn : Type :=
| std_exception (msg : string)
| std_runtime_error (msg : string)
| seh_exception (code : Z).

Definition EXCEPTION_ACCESS_VIOLATION : Z := 0xC0000005.

(** [e.what()] *)
Definition what (e : exn) : string :=
  match e with
  | std_exception msg => msg
  | std_runtime_error msg => msg
  | seh_exception _ => EmptyString
  end.

(** The static types named by the typed [catch] clauses of the file.
    [std::runtime_error] derives from [std::exception]. *)
Inductive exn_class : Type := class_exception | class_runtime_error.

Definition instance_of (e : exn) (c : exn_class) : bool :=
  match e, c with
  | std_exception _, class_exception => true
  | std_runtime_error _, _ => true
  | _, _ => false
  end.

(** The compiler's exception-handling model decides whether [catch (...)]
    also intercepts structured exceptions ([/EHa]) or only language
    exceptions ([/EHsc]).  The project file is not part of the sources, so
    the model is a parameter of the one function that uses [catch (...)]. *)
Inductive eh_model : Type := EHsc | EHa.

Definition caught_by_ellipsis (eh : eh_model) (e : exn) : bool :=
  match eh, e with
  | EHa, _ => true
  | EHsc, seh_exception _ => false
  | EHsc, _ => true
  end.

(** The value of an [__except] filter expression. *)
Inductive seh_filter : Type :=
| EXCEPTION_EXECUTE_HANDLER
| EXCEPTION_CONTINUE_SEARCH.

(** ** The world: memory and the diagnostic log *)

Inductive printf_arg : Type :=
| arg_str (s : string)
| arg_char (c : ascii)
| arg_int (n : Z)
| arg_double (d : float)
| arg_ptr (p : Z).

(** One call of [printf]: the format string and the values passed. *)
Record printf_call : Type := Printf { fmt : string; args : list printf_arg }.

(** Mapped memory is keyed by strictly positive addresses: the null
    address is never mapped. *)
Record world : Type := World {
  mem : gmap positive ascii;
  out : list printf_call
}.

Definition nullptr : Z := 0.

(** ** Statements *)

(** How a statement of a function returning [R] ends. *)
Inductive flow (R A : Type) : Type :=
| Next (a : A)          (* falls through, with a value *)
| Return (r : R)        (* executed a [return] *)
| Throw (e : exn)       (* an exception is propagating *)
| Diverge.              (* loop fuel exhausted *)
Arguments Next {R A} a.
Arguments Return {R A} r.
Arguments Throw {R A} e.
Arguments Diverge {R A}.

Definition stmt (St R A : Type) : Type := St -> flow R A * St.

Definition ret {St R A} (a : A) : stmt St R A := fun s => (Next a, s).

Definition bind {St R A A'} (m : stmt St R A) (k : A -> stmt St R A')
  : stmt St R A' :=
  fun s =>
    match m s with
    | (Next a, s') => k a s'
    | (Return r, s') => (Return r, s')
    | (Throw e, s') => (Throw e, s')
    | (Diverge, s') => (Diverge, s')
    end.

Declare Scope stmt_scope.
Delimit Scope stmt_scope with stmt.
Notation "x <- m ;; k" := (bind m (fun x => k))
  (at level 20, m at level 99, k at level 200, only parsing) : stmt_scope.
Notation "m ;; k" := (bind m (fun _ => k))
  (at level 100, k at level 200, only parsing, right associativity)
  : stmt_scope.
Local Open Scope stmt_scope.

(** [return r;] *)
Definition return_ {St R A} (r : R) : stmt St R A := fun s => (Return r, s).

(** [throw e;] *)
Definition throw {St R A} (e : exn) : stmt St R A := fun s => (Throw e, s).

(** [if (c) { body }] without an [else]. *)
Definition if_ {St R} (c : bool) (body : stmt St R unit) : stmt St R unit :=
  if c then body else ret tt.

(** [try { body } catch (C& e) { handler e }]: the handler runs when an
    exception of class [C] (or derived from it) leaves the body; what the
    handler throws is not seen by this [try] again. *)
Definition try_catch {St R A} (body : stmt St R A) (c : exn_class)
    (handler : exn -> stmt St R A) : stmt St R A :=
  fun s =>
    match body s with
    | (Throw e, s') => if instance_of e c then handler e s' else (Throw e, s')
    | other => other
    end.

(** [try { body } catch (...) { handler }] *)
Definition try_catch_all {St R A} (eh : eh_model) (body : stmt St R A)
    (handler : stmt St R A) : stmt St R A :=
  fun s =>
    match body s with
    | (Throw e, s') =>
        if caught_by_ellipsis eh e then handler s' else (Throw e, s')
    | other => other
    end.

(** [__try { body } __except (filter) { handler }]: language exceptions
    travel on the structured mechanism too, so a filter that evaluates to
    [EXCEPTION_EXECUTE_HANDLER] intercepts whatever leaves the body. *)
Definition seh_try_except {St R A} (body : stmt St R A) (filter : seh_filter)
    (handler : stmt St R A) : stmt St R A :=
  fun s =>
    match body s with
    | (Throw e, s') =>
        match filter with
        | EXCEPTION_EXECUTE_HANDLER => handler s'
        | EXCEPTION_CONTINUE_SEARCH => (Throw e, s')
        end
    | other => other
    end.

(** [for (...; cond; step) { body }] over the locals [l] the loop reads and
    writes; the natural number counts the executions of the body. *)
Fixpoint for_loop {St R L} (fuel : nat) (cond : L -> bool) (step : L -> L)
    (body : L -> stmt St R L) (l : L) (n : nat) : stmt St R (L * nat) :=
  match fuel with
  | O => fun s => (Diverge, s)
  | S fuel' =>
      if cond l
      then l' <- body l ;; for_loop fuel' cond step body (step l') (S n)
      else ret (l, n)
  end.

(** A call of a function whose every path ends in [return] or [throw]:
    the callee's [return r] is the value of the call expression. *)
Definition call {St R R'} (body : stmt St R Empty_set) : stmt St R' R :=
  fun s =>
    match body s with
    | (Next a, _) => match a with end
    | (Return r, s') => (Next r, s')
    | (Throw e, s') => (Throw e, s')
    | (Diverge, s') => (Diverge, s')
    end.

(** A call of a [void] function: falling off the end returns. *)
Definition call_void {St R'} (body : stmt St unit unit) : stmt St R' unit :=
  fun s =>
    match body s with
    | (Next _, s') => (Next tt, s')
    | (Return _, s') => (Next tt, s')
    | (Throw e, s') => (Throw e, s')
    | (Diverge, s') => (Diverge, s')
    end.

(** ** Primitive operations on the world *)

(** The world after more diagnostic output: memory as it was, the log
    extended. *)
Definition emit (w : world) (l : list printf_call) : world :=
  {| mem := mem w; out := out w ++ l |}.

Definition printf {R} (f : string) (a : list printf_arg) : stmt world R unit :=
  fun w => (Next tt, emit w [Printf f a]).

(** [*p = c;] for a [char* p]: a store to an unmapped address raises an
    access violation, a store to a mapped one updates the byte. *)
Definition store_char {R} (p : Z) (c : ascii) : stmt world R unit :=
  fun w =>
    match p with
    | Zpos a =>
        match mem w !! a with
        | Some _ => (Next tt, {| mem := <[a := c]> (mem w); out := out w |})
        | None => (Throw (seh_exception EXCEPTION_ACCESS_VIOLATION), w)
        end
    | _ => (Throw (seh_exception EXCEPTION_ACCESS_VIOLATION), w)
    end.

(** ** Objects *)

(** A member function runs on its object and the world. *)
Definition in_world {O R A} (m : stmt world R A) : stmt (O * world) R A :=
  fun '(o, w) => let (r, w') := m w in (r, (o, w')).

(** Read [this] (the member functions of the file only read fields). *)
Definition this {O R} : stmt (O * world) R O :=
  fun '(o, w) => (Next o, (o, w)).

(** [{ O obj; body }]: a local object constructed with [init], alive for
    the duration of [body]. *)
Definition with_object {O R A} (init : O) (body : stmt (O * world) R A)
  : stmt world R A :=
  fun w => let '(r, (_, w')) := body (init, w) in (r, w').

Definition newline : string := String (ascii_of_nat 10) EmptyString.

(** [this->f] *)
Definition field {O R A} (f : O -> A) : stmt (O * world) R A :=
  o <- this ;; ret (f o).

(** [a[i]] for a local array.  Reading past the end is undefined in C++;
    it is modelled as a fault so that it cannot pass unnoticed. *)
Definition array_read {St R} (a : list ascii) (i : nat) : stmt St R ascii :=
  match a !! i with
  | Some c => ret c
  | None => throw (seh_exception EXCEPTION_ACCESS_VIOLATION)
  end.

(** ** stdafx.h: the Exception Scenario Object *)

Record DllARM64EC_CppxdataUsage : Type := { m_bShouldThrow : bool }.

(** The implicit default constructor, with the default member initializer
    [bool m_bShouldThrow = true;]. *)
Definition DllARM64EC_CppxdataUsage_ctor : DllARM64EC_CppxdataUsage :=
  {| m_bShouldThrow := true |}.

Abbreviation method R A := (stmt (DllARM64EC_CppxdataUsage * world) R A).

(** ** PEParser.Tests.DllARM64EC.cpp *)

Module DllARM64EC_CppxdataUsage_impl.

(** [bool DllARM64EC_CppxdataUsage::MaybeThrow()] *)
Definition MaybeThrow_body : method bool Empty_set :=
  try_catch
    (c <- field m_bShouldThrow ;;
     if_ c (throw (std_exception "ARM64EC dummy exception")))
    class_exception
    (fun except =>
       in_world (printf ("Caught exception: %s" +:+ newline)
                        [arg_str (what except)]) ;;
       return_ false) ;;
  return_ true.

Definition MaybeThrow {R} : method R bool := call MaybeThrow_body.

(** The inner [__try]/[__except] statement of [MaybeThrowWithSEH]. *)
Definition MaybeThrowWithSEH_inner : method bool unit :=
  seh_try_except
    (c <- field m_bShouldThrow ;;
     if_ c (let p := nullptr in
            in_world (store_char p "X"%char)))
    EXCEPTION_EXECUTE_HANDLER
    (in_world (printf ("ARM64EC SEH inner exception handled" +:+ newline) []) ;;
     return_ false).

(** [bool DllARM64EC_CppxdataUsage::MaybeThrowWithSEH()] *)
Definition MaybeThrowWithSEH_body : method bool Empty_set :=
  let a := ["0"%char] in
  seh_try_except
    MaybeThrowWithSEH_inner
    EXCEPTION_EXECUTE_HANDLER
    (in_world (printf ("ARM64EC SEH outer exception handled" +:+ newline) []) ;;
     return_ false) ;;
  a0 <- array_read a 0 ;;
  in_world (printf ("ARM64EC SEH no exception: %c" +:+ newline) [arg_char a0]) ;;
  return_ true.

Definition MaybeThrowWithSEH {R} : method R bool := call MaybeThrowWithSEH_body.

(** [bool DllARM64EC_CppxdataUsage::MaybeThrowNested()] *)
Definition MaybeThrowNested_body : method bool Empty_set :=
  try_catch
    (try_catch
       (c <- field m_bShouldThrow ;;
        if_ c (throw (std_runtime_error "ARM64EC nested exception")))
       class_runtime_error
       (fun inner =>
          in_world (printf ("ARM64EC inner catch: %s" +:+ newline)
                           [arg_str (what inner)]) ;;
          throw (std_exception "ARM64EC re-throw from nested")))
    class_exception
    (fun outer =>
       in_world (printf ("ARM64EC outer catch: %s" +:+ newline)
                        [arg_str (what outer)]) ;;
       return_ false) ;;
  return_ true.

Definition MaybeThrowNested {R} : method R bool := call MaybeThrowNested_body.

End DllARM64EC_CppxdataUsage_impl.
Import DllARM64EC_CppxdataUsage_impl.

(** The [for] statement of [ARM64EC_TestFunction1], over the locals
    [(sum, i)]. *)
Definition ARM64EC_TestFunction1_loop {St R} (fuel : nat) (sum : Z)
  : stmt St R (Z * Z * nat) :=
  for_loop fuel
    (fun '(sum, i) => i <? 100)
    (fun '(sum, i) => (sum, wrap 32 (i + 1)))
    (fun '(sum, i) => ret (wrap 32 (sum + i), i))
    (sum, 0) 0%nat.

(** [void ARM64EC_TestFunction1()]; [fuel] bounds the number of times
    the loop condition may be tested. *)
Definition ARM64EC_TestFunction1 {R} (fuel : nat) : stmt world R unit :=
  call_void
    (printf ("ARM64EC Test Function 1 called" +:+ newline) [] ;;
     let sum := 0 in
     l <- ARM64EC_TestFunction1_loop fuel sum ;;
     let '(sum, _, _) := l in
     printf ("ARM64EC computation result: %d" +:+ newline) [arg_int sum]).

(** The [for] statement of [ARM64EC_TestFunction2], over the locals
    [(result, i)]. *)
Definition ARM64EC_TestFunction2_loop {St R} (fuel : nat) (result : float)
  : stmt St R (float * Z * nat) :=
  for_loop fuel
    (fun '(result, i) => i <=? 10)
    (fun '(result, i) => (result, wrap 32 (i + 1)))
    (fun '(result, i) => ret (PrimFloat.mul result (double_of_int i), i))
    (result, 1) 0%nat.

(** [void ARM64EC_TestFunction2()], with [fuel] as above. *)
Definition ARM64EC_TestFunction2 {R} (fuel : nat) : stmt world R unit :=
  call_void
    (printf ("ARM64EC Test Function 2 called" +:+ newline) [] ;;
     let result := 1%float in
     l <- ARM64EC_TestFunction2_loop fuel result ;;
     let '(result, _, _) := l in
     printf ("ARM64EC factorial result: %f" +:+ newline) [arg_double result]).

(** The body of [ARM64EC_TestFunctionWithEH] after the declaration of
    [testObject], which is the object the statements run on. *)
Definition ARM64EC_TestFunctionWithEH_body (eh : eh_model)
  : method Z Empty_set :=
  try_catch_all eh
    (r1 <- MaybeThrow ;;
     if_ (negb r1)
       (in_world (printf ("ARM64EC exception was caught and handled"
                          +:+ newline) []) ;;
        return_ 1) ;;
     r2 <- MaybeThrowNested ;;
     if_ (negb r2)
       (in_world (printf ("ARM64EC nested exception was caught and handled"
                          +:+ newline) []) ;;
        return_ 2) ;;
     return_ 0)
    (in_world (printf ("ARM64EC unexpected exception in test function"
                       +:+ newline) []) ;;
     return_ (-1)).

(** [int ARM64EC_TestFunctionWithEH()] *)
Definition ARM64EC_TestFunctionWithEH {R} (eh : eh_model) : stmt world R Z :=
  call (with_object DllARM64EC_CppxdataUsage_ctor
          (ARM64EC_TestFunctionWithEH_body eh)).

(** [long long ARM64EC_TestLongLong(long long a, long long b)]: each
    arithmetic operation leaves its result in a 64-bit register. *)
Definition ARM64EC_TestLongLong (a b : Z) : Z :=
  wrap 64 (wrap 64 (a * b) + Z.lxor a b).

(** [double ARM64EC_TestDouble(double x, double y)], evaluated as the
    expression is written: the two products and the sum are each rounded
    to binary64 on their own (no multiply-add contraction). *)
Definition ARM64EC_TestDouble (x y : float) : float :=
  PrimFloat.add (PrimFloat.mul x x) (PrimFloat.mul y y).

(** [void* ARM64EC_TestPointer(void* ptr)] *)
Definition ARM64EC_TestPointer {R} (ptr : Z) : stmt world R Z :=
  call
    (if_ (negb (ptr =? nullptr))
       (printf ("ARM64EC pointer test: %p" +:+ newline) [arg_ptr ptr]) ;;
     return_ ptr).

(** * Vocabulary of the properties *)

(** The integer-pair probe as the specification words it: the exact
    integer [a*b + (a xor b)], then reduced once to 64 bits. *)
Definition spec_TestLongLong (a b : Z) : Z := wrap 64 (a * b + Z.lxor a b).

(** The diagnostic lines of the three probes and of the orchestrating
    probe. *)
Definition report_MaybeThrow : printf_call :=
  Printf ("Caught exception: %s" +:+ newline)
         [arg_str "ARM64EC dummy exception"].
Definition report_seh_inner : printf_call :=
  Printf ("ARM64EC SEH inner exception handled" +:+ newline) [].
Definition report_seh_none : printf_call :=
  Printf ("ARM64EC SEH no exception: %c" +:+ newline) [arg_char "0"].
Definition report_nested_inner : printf_call :=
  Printf ("ARM64EC inner catch: %s" +:+ newline)
         [arg_str "ARM64EC nested exception"].
Definition report_nested_outer : printf_call :=
  Printf ("ARM64EC outer catch: %s" +:+ newline)
         [arg_str "ARM64EC re-throw from nested"].

(** What each probe writes to the log, by the value of the flag. *)
Definition log_MaybeThrow (flag : bool) : list printf_call :=
  if flag then [report_MaybeThrow] else [].
Definition log_MaybeThrowWithSEH (flag : bool) : list printf_call :=
  if flag then [report_seh_inner] else [report_seh_none].
Definition log_MaybeThrowNested (flag : bool) : list printf_call :=
  if flag then [report_nested_inner; report_nested_outer] else [].

Definition report_handled : printf_call :=
  Printf ("ARM64EC exception was caught and handled" +:+ newline) [].

Definition log_TestFunctionWithEH (flag : bool) : list printf_call :=
  if flag then [report_MaybeThrow; report_handled] else [].

(** The discriminated code as the specification words it, from the values
    of the language-exception probe and of the nested-rethrow probe: [0]
    when both completed without triggering, [1] when the first triggered,
    [2] when the second triggered, which is looked at only if the first
    did not. *)
Definition spec_code (r1 r2 : bool) : Z :=
  if r1 then (if r2 then 0 else 2) else 1.

(** An operation whose value and log are functions of the flag alone, and
    which leaves its object and the memory as they were. *)
Definition pure_in_flag (op : forall R, method R bool) : Prop :=
  exists (value : bool -> bool) (log : bool -> list printf_call),
    forall R (o : DllARM64EC_CppxdataUsage) (w : world),
      op R (o, w)
      = (Next (value (m_bShouldThrow o)),
         (o, emit w (log (m_bShouldThrow o)))).

(** ** Vocabulary of the further properties *)

(** A binary64 value that is NaN, and one that is not NaN and whose sign
    bit is clear. *)
Definition is_NaN (x : float) : Prop := Prim2SF x = S754_nan.

Definition sign_clear (x : float) : Prop :=
  match Prim2SF x with
  | S754_nan => False
  | S754_zero s | S754_infinity s | S754_finite s _ _ => s = false
  end.

(** A value that is not NaN and whose sign bit is [s]. *)
Definition sf_signed (s : bool) (f : spec_float) : Prop :=
  match f with
  | S754_nan => False
  | S754_zero s' | S754_infinity s' | S754_finite s' _ _ => s' = s
  end.

(** The three public member functions, as a client names them, and a
    client that calls them one after the other on the same object. *)
Inductive operation : Type :=
| op_MaybeThrow
| op_MaybeThrowWithSEH
| op_MaybeThrowNested.

Definition invoke {R} (op : operation) : method R bool :=
  match op with
  | op_MaybeThrow => MaybeThrow
  | op_MaybeThrowWithSEH => MaybeThrowWithSEH
  | op_MaybeThrowNested => MaybeThrowNested
  end.

Fixpoint invoke_each {R} (ops : list operation) : method R (list bool) :=
  match ops with
  | [] => ret []
  | op :: ops' =>
      r <- invoke op ;;
      rs <- invoke_each ops' ;;
      ret (r :: rs)
  end.

Definition log_of (flag : bool) (op : operation) : list printf_call :=
  match op with
  | op_MaybeThrow => log_MaybeThrow flag
  | op_MaybeThrowWithSEH => log_MaybeThrowWithSEH flag
  | op_MaybeThrowNested => log_MaybeThrowNested flag
  end.


(** [0 + 1 + ... + (k - 1)] and [1 * 2 * ... * k]. *)
Definition triangle (k : nat) : Z := Z.of_nat k * (Z.of_nat k - 1) / 2.

Fixpoint factorial (k : nat) : Z :=
  match k with
  | O => 1
  | S k' => Z.of_nat k * factorial k'
  end.

(** ** Vocabulary of the orchestrating probe *)

Definition report_nested_handled : printf_call :=
  Printf ("ARM64EC nested exception was caught and handled" +:+ newline) [].

(** The statements of [ARM64EC_TestFunctionWithEH] with the two member
    function calls [testObject.MaybeThrow()] and
    [testObject.MaybeThrowNested()] as parameters. *)
Definition TestFunctionWithEH_statements (eh : eh_model)
    (probe1 probe2 : method Z bool) : method Z Empty_set :=
  try_catch_all eh
    (r1 <- probe1 ;;
     if_ (negb r1)
       (in_world (printf ("ARM64EC exception was caught and handled"
                          +:+ newline) []) ;;
        return_ 1) ;;
     r2 <- probe2 ;;
     if_ (negb r2)
       (in_world (printf ("ARM64EC nested exception was caught and handled"
                          +:+ newline) []) ;;
        return_ 2) ;;
     return_ 0)
    (in_world (printf ("ARM64EC unexpected exception in test function"
                       +:+ newline) []) ;;
     return_ (-1)).

(** A call that returns [value s] when made in state [s] and leaves the
    state [after s]. *)
Definition returning {St R A} (value : St -> A) (after : St -> St)
  : stmt St R A :=
  fun s => (Next (value s), after s).

(** The state [s] of a member function with [l] added to the log. *)
Definition logged (s : DllARM64EC_CppxdataUsage * world)
    (l : list printf_call) : DllARM64EC_CppxdataUsage * world :=
  (s.1, emit s.2 l).

(** ** Vocabulary of the loops *)

(** The locals at the head of a [for] statement after [k] executions of
    its body and step, whatever the condition says. *)
Fixpoint loop_head {St R L} (step : L -> L) (body : L -> stmt St R L)
    (l : L) (k : nat) : stmt St R L :=
  match k with
  | O => ret l
  | S k' => l' <- body l ;; loop_head step body (step l') k'
  end.

(** Condition, step and body of the [for] statement of
    [ARM64EC_TestFunction1], over its locals [(sum, i)]:
    [i < 100], [i++] and [sum += i]. *)
Definition TestFunction1_cond : Z * Z -> bool :=
  fun '(sum, i) => i <? 100.
Definition TestFunction1_step : Z * Z -> Z * Z :=
  fun '(sum, i) => (sum, wrap 32 (i + 1)).
Definition TestFunction1_body {St R} : Z * Z -> stmt St R (Z * Z) :=
  fun '(sum, i) => ret (wrap 32 (sum + i), i).

(** The same for [ARM64EC_TestFunction2], over [(result, i)]:
    [i <= 10], [i++] and [result *= (double)i]. *)
Definition TestFunction2_cond : float * Z -> bool :=
  fun '(result, i) => i <=? 10.
Definition TestFunction2_step : float * Z -> float * Z :=
  fun '(result, i) => (result, wrap 32 (i + 1)).
Definition TestFunction2_body {St R} : float * Z -> stmt St R (float * Z) :=
  fun '(result, i) => ret (PrimFloat.mul result (double_of_int i), i).

(** The binary64 value [f] is the integer [z], exactly: a positive finite
    number whose mantissa and exponent give [z]. *)
Definition float_is_Z (f : float) (z : Z) : Prop :=
  match Prim2SF f with
  | S754_finite false m e => e <= 0 /\ Z.pos m = z * 2 ^ (- e)
  | _ => False
  end.

(** ** Vocabulary of binary64 values *)

(** The real number [m * 2^e]. *)
Definition F2R (m e : Z) : R := (IZR m * powerRZ 2 e)%R.

(** The real number a finite binary64 value stands for. *)
Definition SF2R (f : spec_float) : option R :=
  match f with
  | S754_zero _ => Some 0%R
  | S754_finite s m e => Some (F2R (cond_Zopp s (Z.pos m)) e)
  | _ => None
  end.

(** After [k] steps of [shr_1] from [(m, false, false)]: the mantissa is
    [m / 2^k] and the two bits locate the remainder against half. *)
Definition shr_inv (m k : Z) (mrs : shr_record) : Prop :=
  0 <= shr_m mrs /\
  0 <= m - shr_m mrs * 2 ^ k < 2 ^ k /\
  (shr_r mrs = true -> 2 ^ k <= 2 * (m - shr_m mrs * 2 ^ k)) /\
  (shr_r mrs = false -> 2 * (m - shr_m mrs * 2 ^ k) < 2 ^ k) /\
  (shr_s mrs = false ->
   2 * (m - shr_m mrs * 2 ^ k) = if shr_r mrs then 2 ^ k else 0).

(** What [binary_round_aux] returns for the rounded mantissa [m'] and
    exponent [e']. *)
Definition round_result (prec emax : Z) (s : bool) (m' e' : Z) : spec_float :=
  match m' with
  | Z0 => S754_zero s
  | Z.pos p =>
      if e' <=? emax - prec then S754_finite s p e' else S754_infinity s
  | Z.neg _ => S754_nan
  end.

(** [f] is the exact non-negative [t] rounded: [+infinity] on overflow,
    otherwise a value within half a unit in the last place, which is at
    most [2^-prec] times the value for a normal number and [2^(emin-1)]
    for a subnormal one. *)
Definition rounds_to (prec emax : Z) (f : spec_float) (t : R) : Prop :=
  f = S754_infinity false \/
  exists v : R,
    SF2R f = Some v /\ (0 <= v)%R /\
    (Rabs (v - t)
     <= powerRZ 2 (- prec) * v + powerRZ 2 (SpecFloat.emin prec emax - 1))%R.

(** The fused multiply-add of IEEE 754, [x * y + z] with one rounding of
    the exact result, on the representation of binary64 values: what a
    build with multiply-add contraction executes for [x * y + z]. *)
Definition SFfma (prec emax : Z) (x y z : spec_float) : spec_float :=
  match x, y with
  | S754_nan, _ | _, S754_nan => S754_nan
  | S754_infinity _, S754_zero _ | S754_zero _, S754_infinity _ => S754_nan
  | S754_infinity sx, S754_infinity sy
  | S754_infinity sx, S754_finite sy _ _
  | S754_finite sx _ _, S754_infinity sy =>
      SFadd prec emax (S754_infinity (xorb sx sy)) z
  | S754_zero sx, S754_zero sy
  | S754_zero sx, S754_finite sy _ _
  | S754_finite sx _ _, S754_zero sy =>
      SFadd prec emax (S754_zero (xorb sx sy)) z
  | S754_finite sx mx ex, S754_finite sy my ey =>
      match z with
      | S754_nan => S754_nan
      | S754_infinity _ => z
      | S754_zero _ => SFmul prec emax x y
      | S754_finite sz mz ez =>
          let ep := ex + ey in
          let e := Z.min ep ez in
          binary_normalize prec emax
            (cond_Zopp (xorb sx sy) (Z.pos (fst (shl_align (mx * my) ep e)))
             + cond_Zopp sz (Z.pos (fst (shl_align mz ez e))))
            e false
      end
  end.

(** [ARM64EC_TestDouble] as a build with multiply-add contraction
    evaluates it: [y * y] is rounded, then [x * x + (y * y)] is one fused
    multiply-add. *)
Definition TestDouble_contracted_SF (x y : float) : spec_float :=
  SFfma prec emax (Prim2SF x) (Prim2SF x) (Prim2SF (PrimFloat.mul y y)).

Definition TestDouble_contracted (x y : float) : float :=
  SF2Prim (TestDouble_contracted_SF x y).



(** * Properties *)

(** ** Machine arithmetic *)

Section Wrap.
Variable w : Z.
Hypothesis w_pos : 0 < w.

Let half_double : 2 ^ w = 2 * 2 ^ (w - 1).
Proof. rewrite <- Z.pow_succ_r by lia. f_equal. lia. Qed.

Let half_pos : 0 < 2 ^ (w - 1).
Proof. apply Z.pow_pos_nonneg; lia. Qed.

Lemma wrap_range z : - 2 ^ (w - 1) <= wrap w z < 2 ^ (w - 1).
Proof.
  unfold wrap.
  pose proof (Z.mod_pos_bound (z + 2 ^ (w - 1)) (2 ^ w)) as Hb. lia.
Qed.

Lemma wrap_small z : - 2 ^ (w - 1) <= z < 2 ^ (w - 1) -> wrap w z = z.
Proof. intros Hz. unfold wrap. rewrite Z.mod_small; lia. Qed.

Lemma wrap_mod z : wrap w z mod 2 ^ w = z mod 2 ^ w.
Proof.
  unfold wrap.
  rewrite <- (Zminus_mod_idemp_l _ (2 ^ (w - 1))).
  rewrite Z.mod_mod by lia.
  rewrite Zminus_mod_idemp_l. f_equal. lia.
Qed.

Lemma wrap_congr x y : x mod 2 ^ w = y mod 2 ^ w -> wrap w x = wrap w y.
Proof.
  intros Hxy. unfold wrap. f_equal.
  rewrite <- (Zplus_mod_idemp_l x), <- (Zplus_mod_idemp_l y).
  now rewrite Hxy.
Qed.

Lemma wrap_add_l x y : wrap w (wrap w x + y) = wrap w (x + y).
Proof.
  apply wrap_congr.
  rewrite <- Zplus_mod_idemp_l, wrap_mod, Zplus_mod_idemp_l. reflexivity.
Qed.
End Wrap.

(** The exclusive or of two [long long] values is a [long long]: the sign
    bits combine like any other bit, so [a ^ b] needs no wrap. *)
Lemma lxor_longlong_range a b :
  longlong_range a -> longlong_range b -> longlong_range (Z.lxor a b).
Proof.
  unfold longlong_range.
  assert (Hsign : forall z, - 2 ^ 63 <= z < 2 ^ 63 <->
                            (Z.shiftr z 63 = 0 \/ Z.shiftr z 63 = -1)).
  { intros z. rewrite Z.shiftr_div_pow2 by lia.
    pose proof (Z.div_mod z (2 ^ 63) ltac:(lia)) as Hd.
    pose proof (Z.mod_pos_bound z (2 ^ 63) ltac:(lia)) as Hm.
    lia. }
  rewrite !Hsign, Z.shiftr_lxor.
  intros [-> | ->] [-> | ->]; cbn; auto.
Qed.

(** C4: for all 64-bit [a] and [b], negative ones and overflowing products
    included, [ARM64EC_TestLongLong a b] is [a*b + (a xor b)] in 64-bit
    two's-complement arithmetic: the exclusive or is itself a 64-bit
    value, the result is a 64-bit value, it agrees with the exact integer
    modulo [2^64] (so bit for bit on the low 64 bits), and it is the exact
    integer whenever that one is representable. *)
Theorem TestLongLong_twos_complement (a b : Z) :
  longlong_range a -> longlong_range b ->
  ARM64EC_TestLongLong a b = spec_TestLongLong a b /\
  longlong_range (Z.lxor a b) /\
  longlong_range (ARM64EC_TestLongLong a b) /\
  ARM64EC_TestLongLong a b mod 2 ^ 64 = (a * b + Z.lxor a b) mod 2 ^ 64 /\
  (forall i, 0 <= i < 64 ->
     Z.testbit (ARM64EC_TestLongLong a b) i
     = Z.testbit (a * b + Z.lxor a b) i) /\
  (longlong_range (a * b + Z.lxor a b) ->
     ARM64EC_TestLongLong a b = a * b + Z.lxor a b).
Proof.
  intros Ha Hb.
  assert (Heq : ARM64EC_TestLongLong a b = spec_TestLongLong a b).
  { unfold ARM64EC_TestLongLong, spec_TestLongLong. apply wrap_add_l. lia. }
  assert (Hmod : ARM64EC_TestLongLong a b mod 2 ^ 64
                 = (a * b + Z.lxor a b) mod 2 ^ 64).
  { rewrite Heq. unfold spec_TestLongLong. apply wrap_mod. lia. }
  split; [exact Heq |].
  split; [now apply lxor_longlong_range |].
  split; [apply (wrap_range 64); lia |].
  split; [exact Hmod |].
  split.
  - intros i Hi.
    rewrite <- (Z.mod_pow2_bits_low (ARM64EC_TestLongLong a b) 64 i) by lia.
    rewrite <- (Z.mod_pow2_bits_low (a * b + Z.lxor a b) 64 i) by lia.
    now rewrite Hmod.
  - intros Hr. rewrite Heq. apply (wrap_small 64); [lia | exact Hr].
Qed.

(** The most negative value times [-1] overflows and wraps. *)
Lemma TestLongLong_twos_complement_witness :
  longlong_range (- 2 ^ 63) /\ longlong_range (-1) /\
  ARM64EC_TestLongLong (- 2 ^ 63) (-1) = spec_TestLongLong (- 2 ^ 63) (-1) /\
  ARM64EC_TestLongLong (- 2 ^ 63) (-1) = -1.
Proof.
  assert (Ha : longlong_range (- 2 ^ 63)) by (unfold longlong_range; lia).
  assert (Hb : longlong_range (-1)) by (unfold longlong_range; lia).
  destruct (TestLongLong_twos_complement (- 2 ^ 63) (-1) Ha Hb) as [Heq _].
  repeat split; solve [apply Ha | apply Hb | exact Heq].
Defined.

(** ** Statements: general facts *)

Lemma emit_nil w : emit w [] = w.
Proof. destruct w as [m o]. unfold emit. cbn. now rewrite app_nil_r. Qed.

Lemma emit_emit w l1 l2 : emit (emit w l1) l2 = emit w (l1 ++ l2).
Proof. unfold emit. cbn. now rewrite app_assoc. Qed.

Section ForLoop.
Context {St R L : Type}.
Variables (cond : L -> bool) (step : L -> L) (body : L -> stmt St R L).

(** A loop that ends within [fuel] ends the same way with more. *)
Lemma for_loop_more_fuel fuel extra l n s r s' :
  for_loop fuel cond step body l n s = (r, s') ->
  r <> Diverge ->
  for_loop (fuel + extra) cond step body l n s = (r, s').
Proof.
  revert l n s.
  induction fuel as [| fuel IH]; intros l n s Hrun Hr; cbn in *.
  - inversion Hrun; subst. contradiction.
  - destruct (cond l); [| exact Hrun].
    unfold bind in *.
    destruct (body l s) as [[l' | r0 | e |] s1]; try exact Hrun.
    now apply IH.
Qed.

Lemma for_loop_enough_fuel fuel fuel' l n s r s' :
  for_loop fuel cond step body l n s = (r, s') ->
  r <> Diverge ->
  (fuel <= fuel')%nat ->
  for_loop fuel' cond step body l n s = (r, s').
Proof.
  intros Hrun Hr Hle.
  replace fuel' with (fuel + (fuel' - fuel))%nat by lia.
  now apply for_loop_more_fuel.
Qed.
End ForLoop.

(** ** The Exception Scenario Object *)

Ltac run_probe o w :=
  destruct o as [[|]]; cbn; rewrite ?emit_nil, ?emit_emit; reflexivity.

Lemma MaybeThrow_run R (o : DllARM64EC_CppxdataUsage) (w : world) :
  @MaybeThrow R (o, w)
  = (Next (negb (m_bShouldThrow o)),
     (o, emit w (log_MaybeThrow (m_bShouldThrow o)))).
Proof. run_probe o w. Qed.


Lemma MaybeThrowWithSEH_run R (o : DllARM64EC_CppxdataUsage) (w : world) :
  @MaybeThrowWithSEH R (o, w)
  = (Next (negb (m_bShouldThrow o)),
     (o, emit w (log_MaybeThrowWithSEH (m_bShouldThrow o)))).
Proof. run_probe o w. Qed.

Lemma MaybeThrowNested_run R (o : DllARM64EC_CppxdataUsage) (w : world) :
  @MaybeThrowNested R (o, w)
  = (Next (negb (m_bShouldThrow o)),
     (o, emit w (log_MaybeThrowNested (m_bShouldThrow o)))).
Proof. run_probe o w. Qed.

(** C2: on any object and in any world, each of the three operations
    completes its call normally, so nothing is thrown to the caller.  With
    the flag clear the value is [true] and no handler has run: the only
    log line is the one [MaybeThrowWithSEH] prints after reading its local
    array.  With the flag set the value is [false] and the log holds what
    the handlers of the operation printed. *)
Theorem scenario_operations_outcome R (w : world) :
  let clear := {| m_bShouldThrow := false |} in
  let set := {| m_bShouldThrow := true |} in
  (@MaybeThrow R (clear, w) = (Next true, (clear, w)) /\
   @MaybeThrowWithSEH R (clear, w)
   = (Next true, (clear, emit w [report_seh_none])) /\
   @MaybeThrowNested R (clear, w) = (Next true, (clear, w))) /\
  (@MaybeThrow R (set, w) = (Next false, (set, emit w [report_MaybeThrow])) /\
   @MaybeThrowWithSEH R (set, w)
   = (Next false, (set, emit w [report_seh_inner])) /\
   @MaybeThrowNested R (set, w)
   = (Next false,
      (set, emit w [report_nested_inner; report_nested_outer]))).
Proof.
  intros clear set.
  rewrite !MaybeThrow_run, !MaybeThrowWithSEH_run, !MaybeThrowNested_run.
  cbn. rewrite emit_nil. repeat split.
Qed.


(** C7: no operation of the class writes the flag (the object after a
    call is the object before it), the value of every operation is a
    function of the flag alone, and nothing but the diagnostic log
    changes in the world. *)
Theorem flag_read_only_and_outcome_pure :
  pure_in_flag (@MaybeThrow) /\
  pure_in_flag (@MaybeThrowWithSEH) /\
  pure_in_flag (@MaybeThrowNested).
Proof.
  repeat split.
  - exists negb, log_MaybeThrow. intros. apply MaybeThrow_run.
  - exists negb, log_MaybeThrowWithSEH. intros. apply MaybeThrowWithSEH_run.
  - exists negb, log_MaybeThrowNested. intros. apply MaybeThrowNested_run.
Qed.

(** ** The orchestrating probe *)

Lemma TestFunctionWithEH_body_run R (eh : eh_model)
    (testObject : DllARM64EC_CppxdataUsage) (w : world) :
  @call _ _ R (ARM64EC_TestFunctionWithEH_body eh) (testObject, w)
  = (Next (if m_bShouldThrow testObject then 1 else 0),
     (testObject,
      emit w (log_TestFunctionWithEH (m_bShouldThrow testObject)))).
Proof. destruct eh; run_probe testObject w. Qed.

Lemma TestFunctionWithEH_run R (eh : eh_model) (w : world) :
  @ARM64EC_TestFunctionWithEH R eh w
  = (Next 1, emit w [report_MaybeThrow; report_handled]).
Proof.
  unfold ARM64EC_TestFunctionWithEH, call, with_object.
  pose proof (TestFunctionWithEH_body_run Z eh DllARM64EC_CppxdataUsage_ctor w)
    as Hrun.
  unfold call in Hrun.
  destruct (ARM64EC_TestFunctionWithEH_body eh (_, w)) as [[[] | r | e |] [o' w']];
    inversion Hrun; subst; reflexivity.
Qed.

(** C1: in every world and under either exception-handling model the
    exported probe returns the code the two probes select on its
    default-constructed object, here 1 because [MaybeThrow] returns
    [false], and logs [MaybeThrow]'s line and its own.  On any object the
    code and the log are the ones the values of [MaybeThrow] and
    [MaybeThrowNested] select.  The statements of the probe are those of
    [TestFunctionWithEH_statements] on the two member functions, and for
    any two calls that return normally these statements give 0 when both
    return [true], 1 when the first returns [false], in which case the
    second call is not made, and 2 when the first returns [true] and the
    second [false]; the code is always one of 0, 1 and 2 and never -1. *)
Theorem orchestrator_code_in_0_1_2 R (eh : eh_model) (w : world) :
  (@ARM64EC_TestFunctionWithEH R eh w
   = (Next (spec_code false false),
      emit w [report_MaybeThrow; report_handled]) /\
   @MaybeThrow Z (DllARM64EC_CppxdataUsage_ctor, w)
   = (Next false,
      (DllARM64EC_CppxdataUsage_ctor, emit w [report_MaybeThrow]))) /\
  (forall testObject : DllARM64EC_CppxdataUsage,
     let flag := m_bShouldThrow testObject in
     @MaybeThrow Z (testObject, w)
     = (Next (negb flag), (testObject, emit w (log_MaybeThrow flag))) /\
     @MaybeThrowNested Z (testObject, emit w (log_MaybeThrow flag))
     = (Next (negb flag),
        (testObject,
         emit (emit w (log_MaybeThrow flag)) (log_MaybeThrowNested flag))) /\
     @call _ _ R
       (with_object testObject (ARM64EC_TestFunctionWithEH_body eh)) w
     = (Next (spec_code (negb flag) (negb flag)),
        emit w (log_TestFunctionWithEH flag))) /\
  ARM64EC_TestFunctionWithEH_body eh
  = TestFunctionWithEH_statements eh MaybeThrow MaybeThrowNested /\
  (forall (value1 value2 : DllARM64EC_CppxdataUsage * world -> bool)
          (after1 after2 :
             DllARM64EC_CppxdataUsage * world ->
             DllARM64EC_CppxdataUsage * world)
          (s : DllARM64EC_CppxdataUsage * world),
     let r1 := value1 s in
     let r2 := value2 (after1 s) in
     @call _ _ R
       (TestFunctionWithEH_statements eh
          (returning value1 after1) (returning value2 after2)) s
     = (Next (spec_code r1 r2),
        if r1
        then (if r2 then after2 (after1 s)
              else logged (after2 (after1 s)) [report_nested_handled])
        else logged (after1 s) [report_handled])) /\
  (forall r1 r2 : bool,
     (spec_code r1 r2 = 0 \/ spec_code r1 r2 = 1 \/ spec_code r1 r2 = 2) /\
     spec_code r1 r2 <> -1).
Proof.
  split; [split |]; [| | split; [| split; [| split]]].
  - apply TestFunctionWithEH_run.
  - apply MaybeThrow_run.
  - intros testObject flag. subst flag.
    rewrite MaybeThrow_run, MaybeThrowNested_run.
    split; [reflexivity |]. split; [reflexivity |].
    destruct testObject as [[|]]; destruct eh; cbn;
      rewrite ?emit_emit, ?emit_nil; reflexivity.
  - reflexivity.
  - intros value1 value2 after1 after2 s r1 r2. subst r1 r2.
    unfold call, TestFunctionWithEH_statements, try_catch_all, bind,
      returning, if_, logged.
    destruct (value1 s); cbn.
    + destruct (value2 (after1 s)); cbn; [reflexivity |].
      destruct (after2 (after1 s)) as [o2 w2]. reflexivity.
    + destruct (after1 s) as [o1 w1]. reflexivity.
  - intros [|] [|]; cbn; split; try tauto; discriminate.
Qed.

(** C3: with the statements of the orchestrating probe run on an object
    whose flag is set the code is 1, although [MaybeThrowNested] on that
    object would trigger as well; with the flag clear the code is 0. *)
Theorem orchestrator_flag_set_1_clear_0 R (eh : eh_model) (w : world) :
  let clear := {| m_bShouldThrow := false |} in
  let set := {| m_bShouldThrow := true |} in
  @call _ _ R (with_object set (ARM64EC_TestFunctionWithEH_body eh)) w
  = (Next 1, emit w [report_MaybeThrow; report_handled]) /\
  (exists s, @MaybeThrowNested R (set, w) = (Next false, s)) /\
  @call _ _ R (with_object clear (ARM64EC_TestFunctionWithEH_body eh)) w
  = (Next 0, w).
Proof.
  intros clear set. split; [| split].
  - destruct eh; cbn; rewrite emit_emit; reflexivity.
  - rewrite MaybeThrowNested_run. eexists; reflexivity.
  - destruct eh; reflexivity.
Qed.

(** C10: the default member initializer sets the flag, the orchestrating
    probe runs on a default-constructed object, and so it returns exactly
    1 in every world and under either exception-handling model; it
    returns none of 0, 2 and -1. *)
Theorem shipped_orchestrator_returns_1 R (eh : eh_model) (w : world) :
  m_bShouldThrow DllARM64EC_CppxdataUsage_ctor = true /\
  @ARM64EC_TestFunctionWithEH R eh w
  = (Next 1, emit w [report_MaybeThrow; report_handled]) /\
  (forall w', @ARM64EC_TestFunctionWithEH R eh w <> (Next 0, w')) /\
  (forall w', @ARM64EC_TestFunctionWithEH R eh w <> (Next 2, w')) /\
  (forall w', @ARM64EC_TestFunctionWithEH R eh w <> (Next (-1), w')).
Proof.
  rewrite TestFunctionWithEH_run.
  repeat split; intros; discriminate.
Qed.

(** ** The signature-diversity probes *)

(** C5: [ARM64EC_TestPointer] returns its argument, whatever the address.
    It never reads or writes through it: memory is untouched, and the only
    effect is the report of a non-null address.  On the null address it
    returns null and does nothing at all. *)
Theorem TestPointer_identity R (ptr : Z) (w : world) :
  @ARM64EC_TestPointer R ptr w
  = (Next ptr,
     if ptr =? nullptr then w
     else emit w [Printf ("ARM64EC pointer test: %p" +:+ newline)
                         [arg_ptr ptr]]) /\
  @ARM64EC_TestPointer R nullptr w = (Next nullptr, w).
Proof.
  split; [| reflexivity].
  unfold ARM64EC_TestPointer. destruct (ptr =? nullptr); reflexivity.
Qed.

(** ** The no-argument probes *)

(** C9: given fuel for more than 100 (respectively 10) tests of the loop
    condition, each no-argument probe returns.  The loop of the first
    executes its body exactly 100 times and leaves in [sum] the sum of
    0, ..., 99, which is 4950; the loop of the second executes its body
    exactly 10 times and leaves in [result] the running product over
    1, ..., 10, which is 3628800.  Neither loop touches the world; the
    probes only add their two diagnostic lines to the log. *)
Theorem no_arg_probes_terminate R (fuel1 fuel2 : nat) (w : world) :
  (100 < fuel1)%nat -> (10 < fuel2)%nat ->
  (@ARM64EC_TestFunction1_loop world unit fuel1 0 w
   = (Next (foldl (fun sum i => sum + i) 0 (seqZ 0 100), 100, 100%nat), w) /\
   @ARM64EC_TestFunction1 R fuel1 w
   = (Next tt,
      emit w [Printf ("ARM64EC Test Function 1 called" +:+ newline) [];
              Printf ("ARM64EC computation result: %d" +:+ newline)
                     [arg_int 4950]])) /\
  (@ARM64EC_TestFunction2_loop world unit fuel2 1%float w
   = (Next (foldl (fun result i => PrimFloat.mul result (double_of_int i))
                  1%float (seqZ 1 10), 11, 10%nat), w) /\
   @ARM64EC_TestFunction2 R fuel2 w
   = (Next tt,
      emit w [Printf ("ARM64EC Test Function 2 called" +:+ newline) [];
              Printf ("ARM64EC factorial result: %f" +:+ newline)
                     [arg_double 3628800%float]])).
Proof.
  intros Hfuel1 Hfuel2.
  assert (Hloop1 : forall w',
    @ARM64EC_TestFunction1_loop world unit fuel1 0 w'
    = (Next (4950, 100, 100%nat), w')).
  { intros w'. unfold ARM64EC_TestFunction1_loop.
    apply (for_loop_enough_fuel _ _ _ 101); [reflexivity | discriminate | lia]. }
  assert (Hloop2 : forall w',
    @ARM64EC_TestFunction2_loop world unit fuel2 1%float w'
    = (Next (3628800%float, 11, 10%nat), w')).
  { intros w'. unfold ARM64EC_TestFunction2_loop.
    apply (for_loop_enough_fuel _ _ _ 11); [reflexivity | discriminate | lia]. }
  repeat split.
  - rewrite Hloop1. reflexivity.
  - unfold ARM64EC_TestFunction1, call_void, bind, printf.
    rewrite Hloop1, emit_emit. reflexivity.
  - rewrite Hloop2. reflexivity.
  - unfold ARM64EC_TestFunction2, call_void, bind, printf.
    rewrite Hloop2, emit_emit. reflexivity.
Qed.

Lemma no_arg_probes_terminate_witness :
  (100 < 101)%nat /\ (10 < 11)%nat /\
  @ARM64EC_TestFunction1 unit 101 (World ∅ [])
  = (Next tt,
     World ∅ [Printf ("ARM64EC Test Function 1 called" +:+ newline) [];
              Printf ("ARM64EC computation result: %d" +:+ newline)
                     [arg_int 4950]]) /\
  @ARM64EC_TestFunction2 unit 11 (World ∅ [])
  = (Next tt,
     World ∅ [Printf ("ARM64EC Test Function 2 called" +:+ newline) [];
              Printf ("ARM64EC factorial result: %f" +:+ newline)
                     [arg_double 3628800%float]]).
Proof.
  assert (H1 : (100 < 101)%nat) by lia.
  assert (H2 : (10 < 11)%nat) by lia.
  destruct (no_arg_probes_terminate unit 101 11 (World ∅ []) H1 H2)
    as [[_ Hf1] [_ Hf2]].
  repeat split; assumption.
Defined.

(** * Further properties *)

(** ** The integer-pair probe, further *)

Lemma lxor_signed_range k a b :
  0 <= k ->
  - 2 ^ k <= a < 2 ^ k -> - 2 ^ k <= b < 2 ^ k ->
  - 2 ^ k <= Z.lxor a b < 2 ^ k.
Proof.
  intros Hk.
  assert (Hsign : forall z, - 2 ^ k <= z < 2 ^ k <->
                            (Z.shiftr z k = 0 \/ Z.shiftr z k = -1)).
  { intros z. rewrite Z.shiftr_div_pow2 by lia.
    assert (Hp : 0 < 2 ^ k) by (apply Z.pow_pos_nonneg; lia).
    pose proof (Z.div_mod z (2 ^ k) ltac:(lia)) as Hd.
    pose proof (Z.mod_pos_bound z (2 ^ k) ltac:(lia)) as Hm.
    nia. }
  rewrite !Hsign, Z.shiftr_lxor.
  intros [-> | ->] [-> | ->]; cbn; auto.
Qed.

(** X1: the integer-pair probe is symmetric: exchanging its arguments
    does not change the result, for all integers. *)
Theorem TestLongLong_symmetric (a b : Z) :
  ARM64EC_TestLongLong a b = ARM64EC_TestLongLong b a.
Proof.
  unfold ARM64EC_TestLongLong.
  now rewrite (Z.mul_comm a b), (Z.lxor_comm a b).
Qed.

(** X2: with a zero argument the integer-pair probe returns its other
    argument unchanged (the product vanishes and the exclusive or with
    zero is the identity); with two equal arguments it returns their
    square, reduced to 64 bits (the exclusive or vanishes). *)
Theorem TestLongLong_zero_and_equal (a : Z) :
  longlong_range a ->
  ARM64EC_TestLongLong a 0 = a /\
  ARM64EC_TestLongLong 0 a = a /\
  ARM64EC_TestLongLong a a = wrap 64 (a * a).
Proof.
  intros Ha. unfold ARM64EC_TestLongLong.
  rewrite Z.mul_0_r, Z.mul_0_l, Z.lxor_0_r, Z.lxor_0_l, Z.lxor_nilpotent.
  change (wrap 64 0) with 0. rewrite Z.add_0_l, Z.add_0_r.
  repeat split.
  - apply (wrap_small 64); [lia | exact Ha].
  - apply (wrap_small 64); [lia | exact Ha].
  - apply wrap_congr. apply wrap_mod. lia.
Qed.

Lemma TestLongLong_zero_and_equal_witness :
  longlong_range (- 2 ^ 63) /\
  ARM64EC_TestLongLong (- 2 ^ 63) 0 = - 2 ^ 63 /\
  ARM64EC_TestLongLong 0 (- 2 ^ 63) = - 2 ^ 63 /\
  ARM64EC_TestLongLong (- 2 ^ 63) (- 2 ^ 63) = wrap 64 (- 2 ^ 63 * - 2 ^ 63).
Proof.
  assert (Ha : longlong_range (- 2 ^ 63)) by (unfold longlong_range; lia).
  split; [exact Ha |].
  exact (TestLongLong_zero_and_equal (- 2 ^ 63) Ha).
Defined.

(** X3: when both arguments fit in 32 bits nothing wraps: the
    integer-pair probe returns the exact integer [a*b + (a xor b)]. *)
Theorem TestLongLong_exact_on_int (a b : Z) :
  int_range a -> int_range b ->
  ARM64EC_TestLongLong a b = a * b + Z.lxor a b /\
  longlong_range (a * b + Z.lxor a b).
Proof.
  unfold int_range. intros Ha Hb.
  pose proof (lxor_signed_range 31 a b ltac:(lia) Ha Hb) as Hx.
  assert (Hr : longlong_range (a * b + Z.lxor a b)).
  { unfold longlong_range.
    assert (- 2 ^ 62 <= a * b <= 2 ^ 62) by nia. lia. }
  split; [| exact Hr].
  unfold ARM64EC_TestLongLong. rewrite wrap_add_l by lia.
  apply (wrap_small 64); [lia | exact Hr].
Qed.

Lemma TestLongLong_exact_on_int_witness :
  int_range (- 2 ^ 31) /\ int_range (2 ^ 31 - 1) /\
  ARM64EC_TestLongLong (- 2 ^ 31) (2 ^ 31 - 1)
  = - 2 ^ 31 * (2 ^ 31 - 1) + Z.lxor (- 2 ^ 31) (2 ^ 31 - 1).
Proof.
  assert (Ha : int_range (- 2 ^ 31)) by (unfold int_range; lia).
  assert (Hb : int_range (2 ^ 31 - 1)) by (unfold int_range; lia).
  destruct (TestLongLong_exact_on_int _ _ Ha Hb) as [Heq _].
  repeat split; solve [apply Ha | apply Hb | exact Heq].
Defined.

(** ** Binary64 arithmetic *)

Section Rounding.
Variables prec emax : Z.

Lemma shr_1_nonneg mrs : 0 <= shr_m mrs -> 0 <= shr_m (shr_1 mrs).
Proof.
  destruct mrs as [m r s]. cbn.
  destruct m as [| [p | p |] | p]; cbn; lia.
Qed.

Lemma iter_shr_1_nonneg p mrs :
  0 <= shr_m mrs -> 0 <= shr_m (SpecFloat.iter_pos shr_1 p mrs).
Proof.
  revert mrs. induction p as [p IH | p IH |]; intros mrs Hm; cbn.
  - apply IH, IH, shr_1_nonneg, Hm.
  - apply IH, IH, Hm.
  - apply shr_1_nonneg, Hm.
Qed.

Lemma shr_fexp_nonneg m e l :
  0 <= m -> 0 <= shr_m (fst (shr_fexp prec emax m e l)).
Proof.
  intros Hm. unfold shr_fexp, shr.
  assert (H0 : 0 <= shr_m (shr_record_of_loc m l)).
  { destruct l as [| []]; exact Hm. }
  destruct (fexp prec emax (Zdigits2 m + e) - e); cbn; try exact H0.
  now apply iter_shr_1_nonneg.
Qed.

Lemma round_nearest_even_nonneg m l : 0 <= m -> 0 <= round_nearest_even m l.
Proof.
  intros Hm. unfold round_nearest_even.
  destruct l as [| []]; try destruct (Z.even m); lia.
Qed.

(** Rounding a non-negative mantissa never gives NaN and keeps the sign
    it is given. *)
Lemma binary_round_aux_signed s m e l :
  0 <= m -> sf_signed s (binary_round_aux prec emax s m e l).
Proof.
  intros Hm. unfold binary_round_aux.
  pose proof (shr_fexp_nonneg m e l Hm) as H1.
  destruct (shr_fexp prec emax m e l) as [mrs' e']. cbn in H1.
  pose proof (shr_fexp_nonneg _ e' loc_Exact
                (round_nearest_even_nonneg _ (loc_of_shr_record mrs') H1)) as H2.
  destruct (shr_fexp prec emax _ e' loc_Exact) as [mrs'' e'']. cbn in H2.
  destruct (shr_m mrs'') as [| p | p]; cbn; [reflexivity | | lia].
  destruct (e'' <=? emax - prec); reflexivity.
Qed.

Lemma SFmul_square_signed a :
  a <> S754_nan -> sf_signed false (SFmul prec emax a a).
Proof.
  destruct a as [s | s | | s m e]; cbn; intros Ha;
    try apply Bool.xorb_nilpotent; try contradiction.
  rewrite Bool.xorb_nilpotent. now apply binary_round_aux_signed.
Qed.

Lemma SFadd_signed a b :
  sf_signed false a -> sf_signed false b ->
  sf_signed false (SFadd prec emax a b).
Proof.
  destruct a as [sa | sa | | sa ma ea], b as [sb | sb | | sb mb eb]; cbn;
    intros Ha Hb; subst; try contradiction; try reflexivity.
  generalize (shl_align ma ea (Z.min ea eb)).1, (shl_align mb eb (Z.min ea eb)).1.
  intros pa pb. unfold binary_normalize.
  change (cond_Zopp false (Z.pos pa) + cond_Zopp false (Z.pos pb))
    with (Z.pos (pa + pb)).
  cbv iota. unfold binary_round.
  match goal with
  | |- context [shl_align ?p ?e ?e'] => destruct (shl_align p e e') as [mz ez]
  end.
  now apply binary_round_aux_signed.
Qed.

Lemma SFadd_comm a b : SFadd prec emax a b = SFadd prec emax b a.
Proof.
  destruct a as [sa | sa | | sa ma ea], b as [sb | sb | | sb mb eb]; cbn;
    try reflexivity; try (destruct sa, sb; reflexivity).
  rewrite (Z.min_comm eb ea). f_equal. apply Z.add_comm.
Qed.

Lemma SFmul_opp_opp a :
  SFmul prec emax (SFopp a) (SFopp a) = SFmul prec emax a a.
Proof. destruct a as [[] | [] | | [] m e]; reflexivity. Qed.

Lemma SFmul_abs_abs a :
  SFmul prec emax (SFabs a) (SFabs a) = SFmul prec emax a a.
Proof. destruct a as [[] | [] | | [] m e]; reflexivity. Qed.
End Rounding.

(** ** The float-pair probe *)

Lemma TestDouble_spec x y :
  Prim2SF (ARM64EC_TestDouble x y)
  = SF64add (SF64mul (Prim2SF x) (Prim2SF x))
            (SF64mul (Prim2SF y) (Prim2SF y)).
Proof. unfold ARM64EC_TestDouble. now rewrite FloatAxioms.add_spec, !FloatAxioms.mul_spec. Qed.

Lemma TestDouble_signed x y :
  ~ is_NaN x -> ~ is_NaN y ->
  sf_signed false (Prim2SF (ARM64EC_TestDouble x y)).
Proof.
  intros Hx Hy. rewrite TestDouble_spec.
  apply SFadd_signed; now apply SFmul_square_signed.
Qed.

Lemma TestDouble_of_NaN x y :
  is_NaN x \/ is_NaN y -> is_NaN (ARM64EC_TestDouble x y).
Proof.
  unfold is_NaN. rewrite TestDouble_spec.
  intros [-> | ->]; [reflexivity |].
  destruct (SF64mul (Prim2SF x) (Prim2SF x)); reflexivity.
Qed.

Lemma is_NaN_dec x : is_NaN x \/ ~ is_NaN x.
Proof. unfold is_NaN. destruct (Prim2SF x); auto; right; discriminate. Qed.

(** X4: the float-pair probe does not see the sign of its arguments:
    negating either one, or taking absolute values, gives the very same
    binary64 result, for all inputs, non-finite ones included. *)
Theorem TestDouble_sign_insensitive (x y : float) :
  ARM64EC_TestDouble (- x) y = ARM64EC_TestDouble x y /\
  ARM64EC_TestDouble x (- y) = ARM64EC_TestDouble x y /\
  ARM64EC_TestDouble (abs x) (abs y) = ARM64EC_TestDouble x y.
Proof.
  repeat split; apply Prim2SF_inj; rewrite !TestDouble_spec;
    rewrite ?FloatAxioms.opp_spec, ?FloatAxioms.abs_spec; unfold SF64mul;
    rewrite ?SFmul_opp_opp, ?SFmul_abs_abs; reflexivity.
Qed.

(** X5: evaluated as the expression is written, with [x*x], [y*y] and
    their sum each rounded to binary64 on its own (no multiply-add
    contraction), the float-pair probe gives the same result when its two
    arguments are exchanged, for all inputs.  A build that contracts
    [x*x + (y*y)] into a fused multiply-add does not: on
    [0x1.0000002p0] and [0x1.6a09e667f3bccp-27] it gives
    [0x1.0000004000001p+0] one way and [0x1.0000004p+0] the other. *)
Theorem TestDouble_symmetric (x y : float) :
  ARM64EC_TestDouble x y = ARM64EC_TestDouble y x /\
  TestDouble_contracted 0x1.0000002p0 0x1.6a09e667f3bccp-27
  = 0x1.0000004000001p+0%float /\
  TestDouble_contracted 0x1.6a09e667f3bccp-27 0x1.0000002p0
  = 0x1.0000004p+0%float /\
  ARM64EC_TestDouble 0x1.0000002p0 0x1.6a09e667f3bccp-27
  = 0x1.0000004p+0%float /\
  TestDouble_contracted 0x1.0000002p0 0x1.6a09e667f3bccp-27
  <> TestDouble_contracted 0x1.6a09e667f3bccp-27 0x1.0000002p0.
Proof.
  split.
  { apply Prim2SF_inj. rewrite !TestDouble_spec. apply SFadd_comm. }
  split; [vm_compute; reflexivity |].
  split; [vm_compute; reflexivity |].
  split; [vm_compute; reflexivity |].
  intros H. apply (f_equal Prim2SF) in H. vm_compute in H. discriminate H.
Qed.

(** X6: the result of the float-pair probe is NaN exactly when one of its
    arguments is NaN; infinities and overflowing squares never produce
    one. *)
Theorem TestDouble_nan_iff (x y : float) :
  is_NaN (ARM64EC_TestDouble x y) <-> is_NaN x \/ is_NaN y.
Proof.
  split.
  - intros Hr.
    destruct (is_NaN_dec x) as [Hx | Hx]; [now left |].
    destruct (is_NaN_dec y) as [Hy | Hy]; [now right |].
    pose proof (TestDouble_signed x y Hx Hy) as Hs.
    unfold is_NaN in Hr. rewrite Hr in Hs. contradiction.
  - apply TestDouble_of_NaN.
Qed.

(** X7: the result of the float-pair probe is never negative: it is NaN
    or its sign bit is clear (so it is not the negative zero either), and
    the comparison [result < 0] is false for all inputs. *)
Theorem TestDouble_never_negative (x y : float) :
  (is_NaN (ARM64EC_TestDouble x y) \/ sign_clear (ARM64EC_TestDouble x y)) /\
  (ARM64EC_TestDouble x y <? 0)%float = false.
Proof.
  assert (H : is_NaN (ARM64EC_TestDouble x y)
              \/ sign_clear (ARM64EC_TestDouble x y)).
  { destruct (is_NaN_dec x) as [Hx | Hx];
      [left; apply TestDouble_of_NaN; now left |].
    destruct (is_NaN_dec y) as [Hy | Hy];
      [left; apply TestDouble_of_NaN; now right |].
    right. exact (TestDouble_signed x y Hx Hy). }
  split; [exact H |].
  rewrite FloatAxioms.ltb_spec. unfold is_NaN, sign_clear in H.
  change (Prim2SF 0) with (S754_zero false).
  destruct H as [-> | H]; [reflexivity |].
  destruct (Prim2SF (ARM64EC_TestDouble x y)) as [s | s | | s m e];
    try contradiction; subst; reflexivity.
Qed.

(** X8: when one argument is an infinity (of either sign) and the other
    is not NaN, the float-pair probe returns positive infinity. *)
Theorem TestDouble_infinity (x y : float) :
  x = infinity \/ x = neg_infinity -> ~ is_NaN y ->
  ARM64EC_TestDouble x y = infinity /\ ARM64EC_TestDouble y x = infinity.
Proof.
  intros Hx Hy.
  assert (Hxy : ARM64EC_TestDouble x y = infinity).
  { apply Prim2SF_inj. rewrite TestDouble_spec.
    pose proof (SFmul_square_signed prec emax (Prim2SF y) Hy) as Hs.
    change (Prim2SF infinity) with (S754_infinity false).
    unfold SF64add, SF64mul.
    destruct (SFmul prec emax (Prim2SF y) (Prim2SF y)) as [s | s | | s m e];
      try contradiction; cbn in Hs; subst s;
      destruct Hx as [-> | ->]; reflexivity. }
  split; [exact Hxy |].
  rewrite <- Hxy. apply Prim2SF_inj. rewrite !TestDouble_spec.
  apply SFadd_comm.
Qed.

Lemma TestDouble_infinity_witness :
  ARM64EC_TestDouble neg_infinity 3 = infinity /\
  ARM64EC_TestDouble 3 neg_infinity = infinity.
Proof.
  apply TestDouble_infinity.
  - right. reflexivity.
  - unfold is_NaN. vm_compute. discriminate.
Defined.

(** ** The Exception Scenario Object, further *)

Lemma invoke_run R (op : operation) (o : DllARM64EC_CppxdataUsage)
    (w : world) :
  @invoke R op (o, w)
  = (Next (negb (m_bShouldThrow o)),
     (o, emit w (log_of (m_bShouldThrow o) op))).
Proof.
  destruct op; cbn [invoke log_of].
  - apply MaybeThrow_run.
  - apply MaybeThrowWithSEH_run.
  - apply MaybeThrowNested_run.
Qed.

(** X9: a client may call the three operations on one object any number
    of times and in any order: every call returns the negation of the
    flag, the object at the end is the object at the start, memory is
    untouched, and the log grows by the lines of each call in order. *)
Theorem operations_compose R (ops : list operation)
    (o : DllARM64EC_CppxdataUsage) (w : world) :
  @invoke_each R ops (o, w)
  = (Next (replicate (length ops) (negb (m_bShouldThrow o))),
     (o, emit w (concat (map (log_of (m_bShouldThrow o)) ops)))).
Proof.
  revert w. induction ops as [| op ops IH]; intros w.
  - cbn. now rewrite emit_nil.
  - cbn [invoke_each]. unfold bind at 1. rewrite invoke_run.
    unfold bind at 1. rewrite IH. cbn. now rewrite emit_emit.
Qed.


(** ** The no-argument probes, further *)

Section LoopHead.
Context {St R L : Type}.
Variables (cond : L -> bool) (step : L -> L) (body : L -> stmt St R L).

(** A loop with enough fuel whose condition holds at its first [k] heads
    goes through its [k]-th head. *)
Lemma for_loop_through_head k fuel l n s l' s' :
  loop_head step body l k s = (Next l', s') ->
  (forall j lj sj, (j < k)%nat ->
     loop_head step body l j s = (Next lj, sj) -> cond lj = true) ->
  for_loop (k + fuel) cond step body l n s
  = for_loop fuel cond step body l' (k + n) s'.
Proof.
  revert l n s.
  induction k as [| k IH]; intros l n s Hhead Hcond.
  - cbn in Hhead. inversion Hhead; subst. reflexivity.
  - cbn [Nat.add for_loop].
    rewrite (Hcond O l s ltac:(lia) eq_refl).
    cbn [loop_head] in Hhead. unfold bind in Hhead |- *.
    destruct (body l s) as [[l1 | r | e |] s1] eqn:Hbody; try discriminate.
    rewrite (IH (step l1) (S n) s1 Hhead).
    + now rewrite Nat.add_succ_r.
    + intros j lj sj Hj Hlj. apply (Hcond (S j) lj sj ltac:(lia)).
      cbn [loop_head]. unfold bind. now rewrite Hbody.
Qed.
End LoopHead.

Lemma triangle_succ k : triangle (S k) = triangle k + Z.of_nat k.
Proof.
  unfold triangle.
  replace (Z.of_nat (S k) * (Z.of_nat (S k) - 1))
    with (Z.of_nat k * (Z.of_nat k - 1) + Z.of_nat k * 2) by lia.
  now rewrite Z.div_add by lia.
Qed.

Lemma triangle_bounds k : (k <= 100)%nat -> 0 <= triangle k <= 4950.
Proof.
  intros Hk. unfold triangle. split.
  - apply Z.div_pos; nia.
  - apply Z.div_le_upper_bound; nia.
Qed.

Lemma TestFunction1_head R (w : world) k :
  (k <= 100)%nat ->
  @loop_head world R _ TestFunction1_step TestFunction1_body (0, 0) k w
  = (Next (triangle k, Z.of_nat k), w).
Proof.
  intros Hk.
  assert (Hgen : forall j l, (j + k <= 100)%nat ->
    l = (triangle j, Z.of_nat j) ->
    @loop_head world R _ TestFunction1_step TestFunction1_body l k w
    = (Next (triangle (j + k), Z.of_nat (j + k)), w)).
  { clear Hk. induction k as [| k IH]; intros j l Hj ->.
    - now rewrite Nat.add_0_r.
    - cbn [loop_head]. unfold bind, TestFunction1_body, ret.
      rewrite (IH (S j)); [now rewrite Nat.add_succ_r | lia |].
      unfold TestFunction1_step.
      pose proof (triangle_bounds j ltac:(lia)) as Hb.
      rewrite !(wrap_small 32) by lia.
      rewrite triangle_succ. f_equal. lia. }
  exact (Hgen O (0, 0) Hk eq_refl).
Qed.

(** X11: the loop of [ARM64EC_TestFunction1] keeps [sum = 0 + ... + (i-1)]
    at its head.  Its condition, step and body are [i < 100], [i++] and
    [sum += i]; after [k < 100] executions of body and step from
    [sum = 0], [i = 0] the locals are [sum = 0 + ... + (k-1)], [i = k];
    there the condition holds, the body adds [k] to [sum] and the step
    makes [i = k + 1], neither overflowing [int]; the loop run from the
    start goes through that head; and at [i = 100], where [sum = 4950],
    the condition fails. *)
Theorem TestFunction1_loop_invariant R (k fuel : nat) (w : world) :
  (k < 100)%nat ->
  (forall fuel' sum,
     @ARM64EC_TestFunction1_loop world R fuel' sum
     = for_loop fuel' TestFunction1_cond TestFunction1_step
         TestFunction1_body (sum, 0) 0%nat) /\
  @loop_head world R _ TestFunction1_step TestFunction1_body (0, 0) k w
  = (Next (triangle k, Z.of_nat k), w) /\
  TestFunction1_cond (triangle k, Z.of_nat k) = true /\
  @TestFunction1_body world R (triangle k, Z.of_nat k) w
  = (Next (triangle k + Z.of_nat k, Z.of_nat k), w) /\
  TestFunction1_step (triangle k + Z.of_nat k, Z.of_nat k)
  = (triangle (S k), Z.of_nat (S k)) /\
  int_range (triangle k + Z.of_nat k) /\
  int_range (Z.of_nat k + 1) /\
  @for_loop world R _ (k + fuel) TestFunction1_cond TestFunction1_step
     TestFunction1_body (0, 0) 0%nat w
  = for_loop fuel TestFunction1_cond TestFunction1_step
      TestFunction1_body (triangle k, Z.of_nat k) k w /\
  TestFunction1_cond (triangle 100, 100) = false /\
  triangle 100 = 4950.
Proof.
  intros Hk.
  pose proof (triangle_bounds k ltac:(lia)) as Hb.
  split; [reflexivity |].
  split; [apply TestFunction1_head; lia |].
  split; [apply Z.ltb_lt; lia |].
  split.
  { unfold TestFunction1_body, ret. now rewrite (wrap_small 32) by lia. }
  split.
  { unfold TestFunction1_step. rewrite (wrap_small 32) by lia.
    rewrite triangle_succ. f_equal. lia. }
  split; [unfold int_range; lia |].
  split; [unfold int_range; lia |].
  split; [| split; reflexivity].
  rewrite (for_loop_through_head _ _ _ k fuel (0, 0) 0%nat w
             (triangle k, Z.of_nat k) w).
  - now rewrite Nat.add_0_r.
  - apply TestFunction1_head. lia.
  - intros j lj sj Hj Hlj.
    rewrite TestFunction1_head in Hlj by lia.
    inversion Hlj; subst. apply Z.ltb_lt. lia.
Qed.

Lemma TestFunction1_loop_invariant_witness :
  (3 < 100)%nat /\
  @loop_head world unit _ TestFunction1_step TestFunction1_body (0, 0) 3
    (World ∅ [])
  = (Next (3, 3), World ∅ []).
Proof.
  assert (Hk : (3 < 100)%nat) by lia.
  destruct (TestFunction1_loop_invariant unit 3 0 (World ∅ []) Hk)
    as (_ & Hhead & _).
  split; [exact Hk | exact Hhead].
Defined.

Lemma TestFunction2_head R (w : world) k :
  (k <= 10)%nat ->
  @loop_head world R _ TestFunction2_step TestFunction2_body (1%float, 1) k w
  = (Next (double_of_int (factorial k), Z.of_nat k + 1), w).
Proof.
  intros Hk.
  do 11 (destruct k as [| k]; [reflexivity |]). lia.
Qed.

Lemma factorial_exact k :
  (k <= 10)%nat -> float_is_Z (double_of_int (factorial k)) (factorial k).
Proof.
  intros Hk.
  do 11 (destruct k as [| k];
         [vm_compute; split; [discriminate | reflexivity] |]).
  lia.
Qed.

(** X12: the loop of [ARM64EC_TestFunction2] keeps [result = (i-1)!] at
    its head, exactly.  Its condition, step and body are [i <= 10], [i++]
    and [result *= (double)i]; after [k < 10] executions of body and step
    from [result = 1.0], [i = 1] the locals are [result = k!],
    [i = k + 1], with [result] the integer [k!] exactly; there the
    condition holds and the body leaves in [result] the integer
    [k! * (k+1)] exactly, so no product is rounded; the loop run from
    the start goes through that head; and at [i = 11], where
    [result = 10! = 3628800], the condition fails. *)
Theorem TestFunction2_loop_invariant R (k fuel : nat) (w : world) :
  (k < 10)%nat ->
  (forall fuel' result,
     @ARM64EC_TestFunction2_loop world R fuel' result
     = for_loop fuel' TestFunction2_cond TestFunction2_step
         TestFunction2_body (result, 1) 0%nat) /\
  @loop_head world R _ TestFunction2_step TestFunction2_body (1%float, 1) k w
  = (Next (double_of_int (factorial k), Z.of_nat k + 1), w) /\
  float_is_Z (double_of_int (factorial k)) (factorial k) /\
  TestFunction2_cond (double_of_int (factorial k), Z.of_nat k + 1) = true /\
  @TestFunction2_body world R
     (double_of_int (factorial k), Z.of_nat k + 1) w
  = (Next (double_of_int (factorial (S k)), Z.of_nat k + 1), w) /\
  float_is_Z (double_of_int (factorial (S k)))
             (factorial k * (Z.of_nat k + 1)) /\
  TestFunction2_step (double_of_int (factorial (S k)), Z.of_nat k + 1)
  = (double_of_int (factorial (S k)), Z.of_nat (S k) + 1) /\
  @for_loop world R _ (k + fuel) TestFunction2_cond TestFunction2_step
     TestFunction2_body (1%float, 1) 0%nat w
  = for_loop fuel TestFunction2_cond TestFunction2_step
      TestFunction2_body (double_of_int (factorial k), Z.of_nat k + 1) k w /\
  TestFunction2_cond (double_of_int (factorial 10), 11) = false /\
  factorial 10 = 3628800.
Proof.
  intros Hk.
  split; [reflexivity |].
  split; [apply TestFunction2_head; lia |].
  split; [apply factorial_exact; lia |].
  split; [apply Z.leb_le; lia |].
  split.
  { do 10 (destruct k as [| k]; [reflexivity |]). lia. }
  split.
  { replace (factorial k * (Z.of_nat k + 1)) with (factorial (S k))
      by (cbn [factorial]; lia).
    apply factorial_exact. lia. }
  split.
  { unfold TestFunction2_step. rewrite (wrap_small 32) by lia.
    f_equal. lia. }
  split; [| split; reflexivity].
  rewrite (for_loop_through_head _ _ _ k fuel (1%float, 1) 0%nat w
             (double_of_int (factorial k), Z.of_nat k + 1) w).
  - now rewrite Nat.add_0_r.
  - apply TestFunction2_head. lia.
  - intros j lj sj Hj Hlj.
    rewrite TestFunction2_head in Hlj by lia.
    inversion Hlj; subst. apply Z.leb_le. lia.
Qed.

Lemma TestFunction2_loop_invariant_witness :
  (3 < 10)%nat /\
  @loop_head world unit _ TestFunction2_step TestFunction2_body (1%float, 1) 3
    (World ∅ [])
  = (Next (6%float, 4), World ∅ []).
Proof.
  assert (Hk : (3 < 10)%nat) by lia.
  destruct (TestFunction2_loop_invariant unit 3 0 (World ∅ []) Hk)
    as (_ & Hhead & _).
  split; [exact Hk | exact Hhead].
Defined.

(** * The float-pair probe against exact arithmetic *)

(** ** Binary64 rounding: what [binary_round_aux] computes *)

Section RoundZ.
Variables prec emax : Z.
Hypothesis prec_pos : 0 < prec.

Lemma digits2_pos_bounds m :
  2 ^ (Z.pos (digits2_pos m) - 1) <= Z.pos m < 2 ^ Z.pos (digits2_pos m).
Proof.
  induction m as [m IH | m IH |]; cbn [digits2_pos].
  - rewrite Pos2Z.inj_succ, Z.pow_succ_r by lia.
    replace (Z.succ (Z.pos (digits2_pos m)) - 1)
      with (Z.succ (Z.pos (digits2_pos m) - 1)) by lia.
    rewrite Z.pow_succ_r by lia. lia.
  - rewrite Pos2Z.inj_succ, Z.pow_succ_r by lia.
    replace (Z.succ (Z.pos (digits2_pos m)) - 1)
      with (Z.succ (Z.pos (digits2_pos m) - 1)) by lia.
    rewrite Z.pow_succ_r by lia. lia.
  - cbn. lia.
Qed.

Lemma Zdigits2_unique z k :
  2 ^ (k - 1) <= z < 2 ^ k -> 0 < z -> Zdigits2 z = k.
Proof.
  intros Hz Hpos. destruct z as [| m | m]; try lia.
  cbn [Zdigits2]. pose proof (digits2_pos_bounds m) as Hd.
  set (d := Z.pos (digits2_pos m)) in *.
  assert (0 < k).
  { destruct (Z_lt_le_dec 0 k) as [? | Hk]; [assumption |].
    rewrite (Z.pow_neg_r 2 (k - 1)) in Hz by lia.
    destruct (Z.eq_dec k 0) as [-> | ?]; [cbn in Hz; lia |].
    rewrite (Z.pow_neg_r 2 k) in Hz by lia. lia. }
  destruct (Z.lt_trichotomy d k) as [Hlt | [Heq | Hgt]]; [| exact Heq |].
  - pose proof (Z.pow_le_mono_r 2 d (k - 1) ltac:(lia) ltac:(lia)). lia.
  - pose proof (Z.pow_le_mono_r 2 k (d - 1) ltac:(lia) ltac:(lia)). lia.
Qed.

Lemma shr_inv_init m : 0 <= m -> shr_inv m 0 (Build_shr_record m false false).
Proof. intros Hm. unfold shr_inv. cbn. lia. Qed.

Lemma shr_inv_step m k mrs :
  0 <= k -> shr_inv m k mrs -> shr_inv m (k + 1) (shr_1 mrs).
Proof.
  intros Hk. unfold shr_inv. destruct mrs as [mk r s]. cbn [shr_m shr_r shr_s].
  rewrite Z.pow_add_r by lia. change (2 ^ 1) with 2.
  assert (0 < 2 ^ k) by (apply Z.pow_pos_nonneg; lia).
  set (P := 2 ^ k) in *.
  intros (Hm & Hrem & Hr1 & Hr0 & Hs).
  destruct mk as [| [p | p |] | p]; cbn [shr_1 shr_m shr_r shr_s]; try lia;
    destruct r, s; cbn [orb];
    repeat split; intros; try discriminate;
    try specialize (Hr1 eq_refl); try specialize (Hr0 eq_refl);
    try specialize (Hs eq_refl); try lia.
Qed.

Lemma iter_pos_inv {A} (Q : Z -> A -> Prop) (f : A -> A) :
  (forall k x, 0 <= k -> Q k x -> Q (k + 1) (f x)) ->
  forall n k x, 0 <= k -> Q k x -> Q (k + Z.pos n) (SpecFloat.iter_pos f n x).
Proof.
  intros Hf. induction n as [n IH | n IH |]; intros k x Hk Hx; cbn.
  - replace (k + Z.pos n~1) with (k + 1 + Z.pos n + Z.pos n) by lia.
    apply IH; [lia |]. apply IH; [lia |]. now apply Hf.
  - replace (k + Z.pos n~0) with (k + Z.pos n + Z.pos n) by lia.
    apply IH; [lia |]. now apply IH.
  - now apply Hf.
Qed.

Lemma shr_inv_shr m e n :
  0 <= m ->
  let '(mrs, e') := shr (Build_shr_record m false false) e n in
  shr_inv m (Z.max n 0) mrs /\ e' = e + Z.max n 0.
Proof.
  intros Hm. destruct n as [| n | n]; cbn [shr].
  - split; [now apply shr_inv_init | lia].
  - split; [| lia].
    replace (Z.max (Z.pos n) 0) with (0 + Z.pos n) by lia.
    apply (iter_pos_inv (shr_inv m)); [apply shr_inv_step | lia |].
    now apply shr_inv_init.
  - split; [now apply shr_inv_init | lia].
Qed.

(** Rounding to nearest even after the shift is within half a unit. *)
Lemma round_nearest_even_inv m k mrs :
  0 <= k -> shr_inv m k mrs ->
  let m2 := round_nearest_even (shr_m mrs) (loc_of_shr_record mrs) in
  shr_m mrs <= m2 <= shr_m mrs + 1 /\
  2 * Z.abs (m2 * 2 ^ k - m) <= 2 ^ k /\
  (k = 0 -> m2 = m).
Proof.
  intros Hk. unfold shr_inv. destruct mrs as [mk r s]. cbn [shr_m shr_r shr_s].
  assert (0 < 2 ^ k) by (apply Z.pow_pos_nonneg; lia).
  intros (Hm & Hrem & Hr1 & Hr0 & Hs).
  assert (Hk0 : k = 0 -> 2 ^ k = 1) by (intros ->; reflexivity).
  destruct r, s; cbn [loc_of_shr_record round_nearest_even];
    try specialize (Hr1 eq_refl); try specialize (Hr0 eq_refl);
    try specialize (Hs eq_refl);
    try destruct (Z.even mk); repeat split; try lia; intros Hz;
    specialize (Hk0 Hz); lia.
Qed.

(** [binary_round_aux] on a positive mantissa: either nothing is shifted
    out and the value is kept, or the mantissa is shifted to the exponent
    [fexp] asks for (one more on a carry) and the new value is within
    half a unit in the last place of the old one. *)
Lemma binary_round_aux_correct s (m : positive) e :
  let n := fexp prec emax (Z.pos (digits2_pos m) + e) - e in
  exists m' e',
    binary_round_aux prec emax s (Z.pos m) e loc_Exact = round_result prec emax s m' e'
    /\ 0 <= m' /\
    ((n <= 0 /\ m' = Z.pos m /\ e' = e) \/
     (0 < n /\ e + n <= e' <= e + n + 1 /\
      2 * Z.abs (m' * 2 ^ (e' - e) - Z.pos m) <= 2 ^ (e' - e) /\
      m' < 2 ^ prec /\
      (e' = SpecFloat.emin prec emax \/ 2 ^ (prec - 1) <= m'))).
Proof.
  intros n. unfold binary_round_aux, shr_fexp.
  cbn [shr_record_of_loc Zdigits2]. fold n.
  pose proof (shr_inv_shr (Z.pos m) e n (Pos2Z.is_nonneg m)) as H1.
  destruct (shr (Build_shr_record (Z.pos m) false false) e n) as [mrs1 e1].
  destruct H1 as [Hinv1 He1].
  pose proof (round_nearest_even_inv _ _ _ (Z.le_max_r n 0) Hinv1) as Hround.
  cbv zeta in Hround.
  set (m2 := round_nearest_even (shr_m mrs1) (loc_of_shr_record mrs1)) in *.
  destruct Hround as (Hm2 & Herr & Hexact).
  destruct Hinv1 as (Hm1 & Hrem & _).
  set (n2 := fexp prec emax (Zdigits2 m2 + e1) - e1).
  assert (Hm2nn : 0 <= m2) by lia.
  pose proof (shr_inv_shr m2 e1 n2 Hm2nn) as H2.
  destruct (shr (Build_shr_record m2 false false) e1 n2) as [mrs2 e2].
  destruct H2 as [(Hm3 & Hrem2 & _) He2].
  exists (shr_m mrs2), e2. split; [reflexivity |]. split; [exact Hm3 |].
  pose proof (digits2_pos_bounds m) as Hd.
  set (d := Z.pos (digits2_pos m)) in *.
  destruct (Z_le_gt_dec n 0) as [Hn | Hn].
  - (* nothing to shift *)
    left. rewrite Z.max_r in * by lia.
    specialize (Hexact eq_refl).
    assert (Hn2 : n2 = n) by (unfold n2, n; rewrite Hexact, He1; cbn; f_equal; f_equal; lia).
    rewrite Hn2, Z.max_r in * by lia. cbn in Hrem2. lia.
  - right. rewrite (Z.max_l n 0) in * by lia.
    assert (Hp : 0 < 2 ^ n) by (apply Z.pow_pos_nonneg; lia).
    assert (Hprec : 2 ^ prec = 2 * 2 ^ (prec - 1)).
    { rewrite <- Z.pow_succ_r by lia. f_equal. lia. }
    assert (Hpp : 0 < 2 ^ (prec - 1)) by (apply Z.pow_pos_nonneg; lia).
    unfold fexp in n. fold d in n.
    (* bounds on the shifted mantissa *)
    assert (Hm1hi : d - n <= prec - 1 -> shr_m mrs1 < 2 ^ (prec - 1)).
    { intros Hdn.
      destruct (Z_lt_le_dec (d - n) 0) as [Hneg | Hnn].
      - assert (2 ^ d <= 2 ^ n) by (apply Z.pow_le_mono_r; lia). nia.
      - assert (2 ^ d = 2 ^ (d - n) * 2 ^ n)
          by (rewrite <- Z.pow_add_r by lia; f_equal; lia).
        assert (2 ^ (d - n) <= 2 ^ (prec - 1)) by (apply Z.pow_le_mono_r; lia).
        nia. }
    assert (Hnormal : d - n = prec ->
                      2 ^ (prec - 1) <= shr_m mrs1 < 2 ^ prec).
    { intros Hdn.
      assert (2 ^ d = 2 ^ prec * 2 ^ n)
        by (rewrite <- Z.pow_add_r by lia; f_equal; lia).
      assert (2 ^ (d - 1) = 2 ^ (prec - 1) * 2 ^ n)
        by (rewrite <- Z.pow_add_r by lia; f_equal; lia).
      nia. }
    assert (Hcases : (e + n = SpecFloat.emin prec emax /\ d - n <= prec - 1)
                     \/ d - n = prec) by (unfold SpecFloat.emin in *; lia).
    assert (Hsmall : m2 < 2 ^ prec -> n2 = 0 \/ n2 < 0).
    { intros Hlt. unfold n2.
      destruct (Z.eq_dec m2 0) as [-> | Hnz].
      - cbn [Zdigits2]. unfold fexp, SpecFloat.emin in *. lia.
      - assert (Hd2 : Zdigits2 m2 <= prec).
        { destruct m2 as [| p2 | p2]; try lia. cbn [Zdigits2].
          pose proof (digits2_pos_bounds p2) as Hd2.
          destruct (Z_le_gt_dec (Z.pos (digits2_pos p2)) prec); [assumption |].
          assert (2 ^ prec <= 2 ^ (Z.pos (digits2_pos p2) - 1))
            by (apply Z.pow_le_mono_r; lia). lia. }
        unfold fexp, SpecFloat.emin in *. lia. }
    destruct (Z_lt_le_dec m2 (2 ^ prec)) as [Hlt | Hge].
    + (* no carry *)
      assert (Hmax : Z.max n2 0 = 0) by (destruct (Hsmall Hlt); lia).
      rewrite Hmax in *. cbn in Hrem2.
      assert (shr_m mrs2 = m2) by lia.
      replace (e2 - e) with n by lia.
      repeat split; lia.
    + (* carry to the next binade *)
      destruct Hcases as [[_ Hsub] | Hdn]; [specialize (Hm1hi Hsub); lia |].
      specialize (Hnormal Hdn).
      assert (Hcarry : m2 = 2 ^ prec) by lia.
      assert (Hn2 : n2 = 1).
      { unfold n2. rewrite (Zdigits2_unique m2 (prec + 1)).
        - unfold fexp, SpecFloat.emin in *. lia.
        - replace (prec + 1 - 1) with prec by lia.
          rewrite Z.pow_add_r by lia. change (2 ^ 1) with 2. lia.
        - lia. }
      rewrite Hn2 in *. change (Z.max 1 0) with 1 in *.
      change (2 ^ 1) with 2 in Hrem2.
      assert (shr_m mrs2 = 2 ^ (prec - 1)) by lia.
      replace (e2 - e) with (n + 1) by lia.
      rewrite Z.pow_add_r by lia. change (2 ^ 1) with 2.
      repeat split; first [lia | nia].
Qed.
End RoundZ.

(** ** Binary64 values as real numbers *)

Section Pow2.
Local Open Scope R_scope.

Lemma pw_pos a : 0 < powerRZ 2 a.
Proof. apply powerRZ_lt. lra. Qed.

Lemma pw_add a b : powerRZ 2 (a + b) = powerRZ 2 a * powerRZ 2 b.
Proof. apply powerRZ_add. lra. Qed.

Lemma pw_succ a : powerRZ 2 (a + 1) = 2 * powerRZ 2 a.
Proof. rewrite pw_add. change (powerRZ 2 1) with (2 * 1). lra. Qed.

Lemma IZR_pow2 k : (0 <= k)%Z -> IZR (2 ^ k) = powerRZ 2 k.
Proof.
  intros Hk. rewrite <- (Z2Nat.id k Hk).
  rewrite <- pow_IZR, <- pow_powerRZ. reflexivity.
Qed.

Lemma pw_le a b : (a <= b)%Z -> powerRZ 2 a <= powerRZ 2 b.
Proof.
  intros Hab. replace b with (a + (b - a))%Z by lia.
  rewrite pw_add, <- (IZR_pow2 (b - a)) by lia.
  pose proof (Z.pow_pos_nonneg 2 (b - a) ltac:(lia) ltac:(lia)) as Hp.
  assert (H1 : 1 <= IZR (2 ^ (b - a))) by (apply IZR_le; lia).
  pose proof (pw_pos a). nra.
Qed.

Lemma pw_lt a b : (a < b)%Z -> powerRZ 2 a < powerRZ 2 b.
Proof.
  intros Hab. pose proof (pw_le (a + 1) b ltac:(lia)) as Hle.
  rewrite pw_succ in Hle. pose proof (pw_pos a). lra.
Qed.

Lemma pw_le_inv a b : powerRZ 2 a <= powerRZ 2 b -> (a <= b)%Z.
Proof.
  intros Hab. destruct (Z_le_gt_dec a b) as [? | Hgt]; [assumption |].
  pose proof (pw_lt b a ltac:(lia)). lra.
Qed.

Lemma F2R_shift m e k :
  (0 <= k)%Z -> F2R (m * 2 ^ k) e = F2R m (e + k).
Proof.
  intros Hk. unfold F2R. rewrite mult_IZR, IZR_pow2, pw_add by exact Hk. lra.
Qed.

Lemma F2R_nonneg m e : (0 <= m)%Z -> 0 <= F2R m e.
Proof.
  intros Hm. unfold F2R. apply Rmult_le_pos.
  - now apply IZR_le.
  - apply Rlt_le, pw_pos.
Qed.
End Pow2.

Section RoundR.
Variables prec emax : Z.
Hypothesis prec_pos : (0 < prec)%Z.
Local Open Scope R_scope.

(** The relative and the absolute term of one rounding: half a unit in
    the last place of a normal number is at most [u] times the number,
    and of a subnormal number it is [eta]. *)
Let u : R := powerRZ 2 (- prec).
Let eta : R := powerRZ 2 (SpecFloat.emin prec emax - 1).

Lemma u_eta_pos : 0 < u /\ 0 < eta.
Proof. split; apply pw_pos. Qed.

Lemma binary_round_aux_real (m : positive) (e : Z) :
  exists m' e',
    binary_round_aux prec emax false (Z.pos m) e loc_Exact
    = round_result prec emax false m' e' /\
    (0 <= m')%Z /\
    Rabs (F2R m' e' - F2R (Z.pos m) e) <= u * F2R m' e' + eta /\
    (e' = e \/
     (e < e' <= fexp prec emax (Z.pos (digits2_pos m) + e) + 1)%Z).
Proof.
  destruct (binary_round_aux_correct prec emax prec_pos false m e)
    as (m' & e' & Heq & Hm' & Hcases).
  exists m', e'. split; [exact Heq |]. split; [exact Hm' |].
  destruct u_eta_pos as [Hu Heta].
  pose proof (F2R_nonneg m' e' Hm') as Hv.
  destruct Hcases as [(_ & -> & ->) | (Hn & He' & Herr & _ & Hulp)].
  - split; [| now left].
    replace (F2R (Z.pos m) e - F2R (Z.pos m) e) with 0 by lra.
    rewrite Rabs_R0. nra.
  - split; [| right; lia].
    set (k := (e' - e)%Z) in *.
    assert (Hk : (0 <= k)%Z) by lia.
    apply IZR_le in Herr.
    rewrite mult_IZR, abs_IZR, minus_IZR, mult_IZR, IZR_pow2 in Herr by exact Hk.
    assert (Hdiff : F2R m' e' - F2R (Z.pos m) e
                    = (IZR m' * powerRZ 2 k - IZR (Z.pos m)) * powerRZ 2 e).
    { unfold F2R. replace e' with (k + e)%Z by lia. rewrite pw_add. lra. }
    rewrite Hdiff, Rabs_mult, (Rabs_pos_eq (powerRZ 2 e))
      by (apply Rlt_le, pw_pos).
    pose proof (pw_pos e) as Hpe.
    assert (Hhalf : Rabs (IZR m' * powerRZ 2 k - IZR (Z.pos m)) * powerRZ 2 e
                    <= powerRZ 2 (e' - 1)).
    { assert (Hpw : powerRZ 2 (e' - 1) * 2 = powerRZ 2 k * powerRZ 2 e).
      { rewrite <- pw_add. replace (k + e)%Z with (e' - 1 + 1)%Z by lia.
        rewrite pw_succ. lra. }
      nra. }
    destruct Hulp as [-> | Hnormal].
    + unfold eta. nra.
    + apply IZR_le in Hnormal. rewrite IZR_pow2 in Hnormal by lia.
      assert (Hulp : powerRZ 2 (e' - 1) <= u * F2R m' e').
      { unfold u, F2R.
        replace (e' - 1)%Z with (- prec + ((prec - 1) + e'))%Z by lia.
        rewrite !pw_add.
        apply Rmult_le_compat_l; [apply Rlt_le, pw_pos |].
        apply Rmult_le_compat_r; [apply Rlt_le, pw_pos | exact Hnormal]. }
      lra.
Qed.
End RoundR.

Lemma Rabs_le_iff (x b : R) : (Rabs x <= b <-> - b <= x <= b)%R.
Proof. unfold Rabs. destruct (Rcase_abs x); lra. Qed.

Lemma iter_xO_value d : forall m,
  Z.pos (Pos.iter xO m d) = Z.pos m * 2 ^ Z.pos d.
Proof.
  induction d as [d IH | d IH |]; intros m; cbn [Pos.iter].
  - rewrite (Pos2Z.inj_xO (Pos.iter _ _ _)), !IH, (Pos2Z.inj_xI d).
    rewrite Z.pow_add_r, (Z.pow_twice_r 2 (Z.pos d)) by lia.
    change (2 ^ 1) with 2. lia.
  - rewrite !IH, (Pos2Z.inj_xO d), (Z.pow_twice_r 2 (Z.pos d)). lia.
  - rewrite (Pos2Z.inj_xO m). change (2 ^ 1) with 2. lia.
Qed.

(** Aligning a mantissa to a smaller exponent keeps the value. *)
Lemma shl_align_value mx ex ex' :
  let '(mz, ez) := shl_align mx ex ex' in
  F2R (Z.pos mz) ez = F2R (Z.pos mx) ex /\ ez = Z.min ex ex'.
Proof.
  unfold shl_align.
  destruct (ex' - ex) as [| d | d] eqn:Hd; [split; [reflexivity | lia] .. |].
  split; [| lia].
  rewrite iter_xO_value, F2R_shift by lia. f_equal. lia.
Qed.

Section ErrorR.
Variables prec emax : Z.
Hypothesis prec_pos : (0 < prec)%Z.
Hypothesis emax_big : (2 <= emax)%Z.
Local Open Scope R_scope.

Lemma round_result_rounds (m : positive) (e : Z) :
  let f := binary_round_aux prec emax false (Z.pos m) e loc_Exact in
  let t := F2R (Z.pos m) e in
  rounds_to prec emax f t /\
  (t < powerRZ 2 (emax - 1) -> (e <= emax - prec)%Z ->
   f <> S754_infinity false).
Proof.
  intros f t. subst f t.
  destruct (binary_round_aux_real prec emax prec_pos m e)
    as (m' & e' & -> & Hm' & Herr & He').
  split.
  - unfold rounds_to, round_result.
    destruct m' as [| p | p]; [| | lia].
    + right. exists 0. split; [reflexivity |].
      split; [lra |].
      assert (Hz : F2R 0 e' = 0) by (unfold F2R; lra).
      rewrite Hz in Herr. exact Herr.
    + destruct (e' <=? emax - prec)%Z; [| now left].
      right. exists (F2R (Z.pos p) e'). split; [reflexivity |].
      split; [now apply F2R_nonneg |]. exact Herr.
  - intros Ht He. unfold round_result.
    destruct m' as [| p | p]; try discriminate.
    assert (He'' : (e' <= emax - prec)%Z).
    { destruct He' as [-> | [_ Hle]]; [exact He |].
      pose proof (digits2_pos_bounds m) as [Hlo _].
      set (d := Z.pos (digits2_pos m)) in *.
      assert (Hd : (d + e <= emax - 1)%Z).
      { apply IZR_le in Hlo. rewrite IZR_pow2 in Hlo by lia.
        assert (Hlow : powerRZ 2 (d - 1 + e) <= F2R (Z.pos m) e).
        { unfold F2R. rewrite pw_add.
          apply Rmult_le_compat_r; [apply Rlt_le, pw_pos | exact Hlo]. }
        destruct (Z_le_gt_dec (d + e) (emax - 1)) as [? | Hgt]; [assumption |].
        pose proof (pw_le (emax - 1) (d - 1 + e) ltac:(lia)). lra. }
      unfold fexp, SpecFloat.emin in Hle. lia. }
    apply Z.leb_le in He''. rewrite He''. discriminate.
Qed.

Lemma SF2R_square s m e :
  F2R (Z.pos (m * m)) (e + e)
  = F2R (cond_Zopp s (Z.pos m)) e * F2R (cond_Zopp s (Z.pos m)) e.
Proof.
  unfold F2R. rewrite Pos2Z.inj_mul, mult_IZR, pw_add.
  destruct s; cbn [cond_Zopp]; [rewrite opp_IZR |]; lra.
Qed.

(** The square of a finite value, as [SFmul] rounds it. *)
Lemma SFmul_square_rounds x vx :
  SpecFloat.valid_binary prec emax x = true -> SF2R x = Some vx ->
  rounds_to prec emax (SFmul prec emax x x) (vx * vx) /\
  (vx * vx < powerRZ 2 (emax - 1) ->
   SFmul prec emax x x <> S754_infinity false).
Proof.
  pose proof (pw_pos (- prec)) as Hu.
  pose proof (pw_pos (SpecFloat.emin prec emax - 1)) as Heta.
  destruct x as [s | s | | s m e]; cbn [SF2R]; intros Hvalid Hvx;
    try discriminate; inversion Hvx; subst vx; clear Hvx.
  - cbn [SFmul]. split; [| discriminate].
    right. exists 0. split; [reflexivity |].
    rewrite Rmult_0_l, Rminus_0_r, Rabs_R0. lra.
  - cbn [SFmul]. rewrite Bool.xorb_nilpotent, <- (SF2R_square s).
    destruct (round_result_rounds (m * m) (e + e)) as [Hr Hfin].
    split; [exact Hr |].
    intros Hlt. apply Hfin; [exact Hlt |].
    (* the exponent of the product is small whenever its value is *)
    cbn [SpecFloat.valid_binary] in Hvalid. unfold bounded, canonical_mantissa in Hvalid.
    apply andb_prop in Hvalid. destruct Hvalid as [Hcan Hle].
    apply Z.eqb_eq in Hcan. apply Z.leb_le in Hle.
    pose proof (digits2_pos_bounds m) as [Hlo _].
    set (d := Z.pos (digits2_pos m)) in *.
    unfold fexp, SpecFloat.emin in Hcan.
    destruct (Z_le_gt_dec (e + e) (emax - prec)) as [? | Hgt]; [assumption |].
    exfalso.
    assert (Hd : (d = prec)%Z) by lia.
    assert (Hlow : powerRZ 2 (prec - 1 + e) <= F2R (Z.pos m) e).
    { apply IZR_le in Hlo. rewrite IZR_pow2 in Hlo by lia.
      unfold F2R. rewrite pw_add, <- Hd.
      apply Rmult_le_compat_r; [apply Rlt_le, pw_pos | exact Hlo]. }
    rewrite (SF2R_square false) in Hlt. cbn [cond_Zopp] in Hlt.
    pose proof (pw_pos (prec - 1 + e)) as Hp.
    assert (Hsq : powerRZ 2 (prec - 1 + e + (prec - 1 + e))
                  <= F2R (Z.pos m) e * F2R (Z.pos m) e)
      by (rewrite pw_add; nra).
    pose proof (pw_le (emax - 1) (prec - 1 + e + (prec - 1 + e))
                  ltac:(lia)).
    lra.
Qed.

(** The exact sum of two positive mantissa-exponent pairs, aligned and
    rounded once. *)
Lemma aligned_sum_rounds (m1 m2 : positive) (e1 e2 : Z) :
  let ez := Z.min e1 e2 in
  let f := binary_normalize prec emax
             (Z.pos (fst (shl_align m1 e1 ez))
              + Z.pos (fst (shl_align m2 e2 ez)))%Z ez false in
  let t := F2R (Z.pos m1) e1 + F2R (Z.pos m2) e2 in
  rounds_to prec emax f t /\
  (t < powerRZ 2 (emax - 1) -> (ez <= emax - prec)%Z ->
   f <> S754_infinity false).
Proof.
  intros ez f t. subst f t.
  pose proof (shl_align_value m1 e1 ez) as Hs1.
  pose proof (shl_align_value m2 e2 ez) as Hs2.
  destruct (shl_align m1 e1 ez) as [p1 e1'].
  destruct (shl_align m2 e2 ez) as [p2 e2'].
  destruct Hs1 as [Hp1 He1]. destruct Hs2 as [Hp2 He2]. cbn [fst].
  change (Z.pos p1 + Z.pos p2)%Z with (Z.pos (p1 + p2)).
  unfold binary_normalize, binary_round.
  match goal with
  | |- context [shl_align ?p ?e ?e'] =>
      pose proof (shl_align_value p e e') as Hsz;
      destruct (shl_align p e e') as [mz ez']
  end.
  destruct Hsz as [Hmz Hez].
  assert (Hsum : F2R (Z.pos mz) ez'
                 = F2R (Z.pos m1) e1 + F2R (Z.pos m2) e2).
  { rewrite Hmz, <- Hp1, <- Hp2.
    replace e1' with ez by (subst ez; lia).
    replace e2' with ez by (subst ez; lia).
    unfold F2R. rewrite Pos2Z.inj_add, plus_IZR. lra. }
  rewrite <- Hsum.
  destruct (round_result_rounds mz ez') as [Hr Hfin].
  split; [exact Hr |].
  intros Hlt Hle. apply Hfin; [exact Hlt | lia].
Qed.

End ErrorR.

(** ** The float-pair probe against the exact sum of squares *)

Section Binary64.
Local Open Scope R_scope.

Lemma u64_value : powerRZ 2 (-53) = / 9007199254740992.
Proof.
  change (-53)%Z with (- (53))%Z. rewrite powerRZ_neg', <- IZR_pow2 by lia.
  reflexivity.
Qed.

Lemma eta64_small : 0 < powerRZ 2 (-1075) <= / 8.
Proof.
  split; [apply pw_pos |].
  replace (/ 8) with (powerRZ 2 (-3)).
  - apply pw_le. lia.
  - change (-3)%Z with (- (3))%Z. rewrite powerRZ_neg', <- IZR_pow2 by lia.
    reflexivity.
Qed.


(** The same sum of squares with the first product and the sum fused:
    one rounding less. *)
Lemma fused_sum_of_squares_rounds (sx sy : spec_float) (vx vy : R) :
  SpecFloat.valid_binary prec emax sx = true ->
  SpecFloat.valid_binary prec emax sy = true ->
  SpecFloat.valid_binary prec emax (SF64mul sy sy) = true ->
  SF2R sx = Some vx -> SF2R sy = Some vy ->
  let r := SFfma prec emax sx sx (SF64mul sy sy) in
  let E := vx * vx + vy * vy in
  (r = S754_infinity false \/
   exists vr, SF2R r = Some vr /\
     Rabs (vr - E) <= powerRZ 2 (-51) * E + powerRZ 2 (-1073)) /\
  (E <= powerRZ 2 1022 -> r <> S754_infinity false).
Proof.
  intros Hvx Hvy Hvb Hx Hy r E. subst r E.
  unfold SF64mul in *.
  assert (Hprec : (0 < prec)%Z) by reflexivity.
  assert (Hemax : (2 <= emax)%Z) by (intros H; discriminate H).
  destruct (SFmul_square_rounds prec emax Hprec Hemax sx vx Hvx Hx)
    as [Ha Hafin].
  destruct (SFmul_square_rounds prec emax Hprec Hemax sy vy Hvy Hy)
    as [Hb Hbfin].
  assert (Hsb : sf_signed false (SFmul prec emax sy sy)).
  { apply SFmul_square_signed. intros ->. discriminate. }
  pose proof u64_value as Hu. pose proof eta64_small as Heta.
  assert (HP : 1 <= powerRZ 2 1022)
    by (change 1 with (powerRZ 2 0); apply pw_le; lia).
  assert (HP2 : powerRZ 2 (emax - 1) = 2 * powerRZ 2 1022)
    by (change (emax - 1)%Z with (1022 + 1)%Z; apply pw_succ).
  assert (H51 : powerRZ 2 (-51) = 4 * powerRZ 2 (-53)).
  { change (-51)%Z with (-53 + 1 + 1)%Z. rewrite !pw_succ. lra. }
  assert (H1073 : powerRZ 2 (-1073) = 4 * powerRZ 2 (-1075)).
  { change (-1073)%Z with (-1075 + 1 + 1)%Z. rewrite !pw_succ. lra. }
  unfold rounds_to in Ha, Hb.
  change (powerRZ 2 (- prec)) with (powerRZ 2 (-53)) in *.
  change (powerRZ 2 (SpecFloat.emin prec emax - 1))
    with (powerRZ 2 (-1075)) in *.
  set (b := SFmul prec emax sy sy) in *.
  set (eta := powerRZ 2 (-1075)) in *.
  set (Y := vy * vy) in *.
  assert (HY : 0 <= Y) by (unfold Y; nra).
  assert (HX : 0 <= vx * vx) by nra.
  rewrite H51, H1073, Hu, HP2 in *. fold eta.
  destruct Hb as [Hb | (vb & Hvb' & Hvb0 & Hberr)].
  { (* the rounded square overflows *)
    split.
    - left. rewrite Hb.
      destruct sx as [s | s | | s m e]; try discriminate; reflexivity.
    - intros HE. exfalso. apply Hbfin; [lra | exact Hb]. }
  apply Rabs_le_iff in Hberr.
  destruct sx as [s | s | | s m e]; cbn [SF2R] in Hx; try discriminate;
    inversion Hx; subst vx; clear Hx.
  - (* x is a zero *)
    cbn [SFfma]. rewrite Bool.xorb_nilpotent.
    replace (0 * 0) with 0 in * by lra.
    destruct b as [sb | sb | | sb mb eb]; cbn [sf_signed SF2R] in Hsb, Hvb';
      try contradiction; try discriminate; subst sb; cbn [SFadd].
    + split; [| discriminate]. right. exists 0. split; [reflexivity |].
      inversion Hvb'; subst vb. apply Rabs_le_iff. lra.
    + split; [| discriminate]. right. exists vb. split; [exact Hvb' |].
      apply Rabs_le_iff. lra.
  - (* x is a finite number *)
    set (X := F2R (cond_Zopp s (Z.pos m)) e * F2R (cond_Zopp s (Z.pos m)) e)
      in *.
    destruct b as [sb | sb | | sb mb eb] eqn:Hbeq;
      cbn [sf_signed SF2R] in Hsb, Hvb';
      try contradiction; try discriminate; subst sb.
    + (* the rounded square is zero: the product is rounded alone *)
      cbn [SFfma]. inversion Hvb'; subst vb.
      destruct Ha as [Ha | (va & Hva' & Hva0 & Haerr)].
      * split; [now left |]. intros HE. exfalso. apply Hafin; [lra | exact Ha].
      * split.
        -- right. exists va. split; [exact Hva' |].
           apply Rabs_le_iff in Haerr. apply Rabs_le_iff. lra.
        -- intros HE. apply Hafin. lra.
    + (* one rounding of the exact product plus the rounded square *)
      cbn [SFfma]. rewrite Bool.xorb_nilpotent. cbn [cond_Zopp].
      destruct (aligned_sum_rounds prec emax Hprec Hemax (m * m) mb (e + e) eb)
        as [Hr Hrfin].
      cbv zeta in Hr, Hrfin.
      rewrite (SF2R_square s) in Hr, Hrfin. fold X in Hr, Hrfin.
      inversion Hvb'; subst vb. cbn [cond_Zopp] in *.
      set (vb := F2R (Z.pos mb) eb) in *.
      unfold rounds_to in Hr.
      change (powerRZ 2 (- prec)) with (powerRZ 2 (-53)) in Hr.
      change (powerRZ 2 (SpecFloat.emin prec emax - 1)) with eta in Hr.
      rewrite Hu in Hr. rewrite HP2 in Hrfin.
      assert (Heb : (Z.min (e + e) eb <= emax - prec)%Z).
      { cbn [SpecFloat.valid_binary] in Hvb. unfold bounded in Hvb.
        apply andb_prop in Hvb. destruct Hvb as [_ Hle].
        apply Z.leb_le in Hle. lia. }
      split.
      * destruct Hr as [Hr | (vr & Hvr & Hvr0 & Hrerr)]; [now left | right].
        exists vr. split; [exact Hvr |].
        apply Rabs_le_iff in Hrerr. apply Rabs_le_iff. lra.
      * intros HE. apply Hrfin; [lra | exact Heb].
Qed.
End Binary64.

Lemma is_finite_SF2R (x : float) :
  is_finite x = true -> exists v, SF2R (Prim2SF x) = Some v.
Proof.
  unfold is_finite, Prim2SF.
  destruct (PrimFloat.is_nan x), (PrimFloat.is_zero x), (PrimFloat.is_infinity x); cbn [orb negb SF2R];
    intros H; try discriminate; try (eexists; reflexivity).
  destruct (Z.frexp x) as [r ex].
  destruct (shr_fexp _ _ _ _ _) as [mrs e'].
  destruct (shr_m mrs); eexists; reflexivity.
Qed.




(** X13: the bound of C8 does not depend on multiply-add contraction.
    On finite [x] and [y], a build that rounds [y*y] and then fuses
    [x*x + (y*y)] gives either [+infinity] or a finite number within the
    relative error [2^-51] and the absolute error [2^-1073] of the exact
    [x*x + y*y], and it gives such a finite number whenever the exact sum
    of squares is at most [2^1022]. *)
Theorem TestDouble_contracted_within_rounding (x y : float) :
  is_finite x = true -> is_finite y = true ->
  (TestDouble_contracted_SF x y = S754_infinity false \/
   exists vx vy vr : R,
     SF2R (Prim2SF x) = Some vx /\ SF2R (Prim2SF y) = Some vy /\
     SF2R (TestDouble_contracted_SF x y) = Some vr /\
     (Rabs (vr - (vx * vx + vy * vy))
      <= powerRZ 2 (-51) * (vx * vx + vy * vy) + powerRZ 2 (-1073))%R) /\
  (forall vx vy : R,
     SF2R (Prim2SF x) = Some vx -> SF2R (Prim2SF y) = Some vy ->
     (vx * vx + vy * vy <= powerRZ 2 1022)%R ->
     exists vr : R,
       SF2R (TestDouble_contracted_SF x y) = Some vr /\
       (Rabs (vr - (vx * vx + vy * vy))
        <= powerRZ 2 (-51) * (vx * vx + vy * vy) + powerRZ 2 (-1073))%R).
Proof.
  intros Hfx Hfy.
  destruct (is_finite_SF2R x Hfx) as [vx Hx].
  destruct (is_finite_SF2R y Hfy) as [vy Hy].
  assert (Hvb : valid_binary (SF64mul (Prim2SF y) (Prim2SF y)) = true).
  { rewrite <- FloatAxioms.mul_spec. apply Prim2SF_valid. }
  pose proof (fused_sum_of_squares_rounds (Prim2SF x) (Prim2SF y) vx vy
                (Prim2SF_valid x) (Prim2SF_valid y) Hvb Hx Hy) as Hsum.
  cbv zeta in Hsum. rewrite <- FloatAxioms.mul_spec in Hsum.
  fold (TestDouble_contracted_SF x y) in Hsum.
  destruct Hsum as [Hr Hfin].
  split.
  - destruct Hr as [Hinf | (vr & Hvr & Herr)]; [now left | right].
    exists vx, vy, vr. auto.
  - intros vx' vy' Hx' Hy' HE.
    rewrite Hx in Hx'. rewrite Hy in Hy'.
    inversion Hx'; inversion Hy'; subst vx' vy'.
    destruct Hr as [Hinf | (vr & Hvr & Herr)]; [| eauto].
    exfalso. exact (Hfin HE Hinf).
Qed.

Lemma TestDouble_contracted_within_rounding_witness :
  is_finite 3 = true /\ is_finite 4 = true /\
  (TestDouble_contracted_SF 3 4 = S754_infinity false \/
   exists vx vy vr : R,
     SF2R (Prim2SF 3) = Some vx /\ SF2R (Prim2SF 4) = Some vy /\
     SF2R (TestDouble_contracted_SF 3 4) = Some vr /\
     (Rabs (vr - (vx * vx + vy * vy))
      <= powerRZ 2 (-51) * (vx * vx + vy * vy) + powerRZ 2 (-1073))%R).
Proof.
  assert (H3 : is_finite 3 = true) by reflexivity.
  assert (H4 : is_finite 4 = true) by reflexivity.
  destruct (TestDouble_contracted_within_rounding 3 4 H3 H4) as [Hr _].
  repeat split; solve [apply H3 | apply H4 | exact Hr].
Defined.
